(** * Structural operators of the C# driver normalizer

    A shallow embedding of the custom operators of
    [driver/normalizer/normalizer.go] ([opArrHasKeyword], [opArrToChain],
    [dropNils], [opMoveTrivias], [opMergeGroups]) and the properties the
    specification states about them. *)

From Stdlib Require Import ZArith String.
From stdpp Require Import gmap strings list.

Open Scope string_scope.
Open Scope list_scope.

(** ** Node model *)

(** Modelled from the spec: the [nodes] package of the SDK is imported, not
    part of this repository.  A node is the tagged union of section 3:
    Null (Go's nil interface), Bool, Int, Float, String, Array and Object.
    A Float carries its 64-bit pattern: no operator looks inside it.  An
    Array is the sequence of its elements; Go's nil slice and the empty
    slice both have length 0 and are both [Arr []].  An Object is a map from
    field names to nodes (a Go [map[string]Node]). *)
#[warnings="-register-all"]
Inductive Node : Type :=
| Null
| Bool (b : bool)
| Int (i : Z)
| Float (bits : Z)
| Str (s : string)
| Arr (elems : list Node)
| Obj (fields : gmap string Node).

Abbreviation Object := (gmap string Node).

(** [n == nil] on the interface value. *)
Definition isNil (n : Node) : bool :=
  match n with Null => true | _ => false end.

(** A Go slice as a type assertion hands it over: whether it is the nil
    slice, and its elements. *)
Record Slice : Type := mkSlice { sliceNil : bool; items : list Node }.

(** [arr, ok := n.(nodes.Array)]: on failure [arr] is the zero value of the
    asserted type, the nil slice. *)
Definition assertArray (n : Node) : Slice * bool :=
  match n with
  | Arr a => (mkSlice false a, true)
  | _ => (mkSlice true [], false)
  end.

(** [x := m[key].(nodes.Array)] with the zero value on failure (an absent
    key reads as the nil interface), together with the ok flag. *)
Definition fieldArray (m : Object) (key : string) : list Node * bool :=
  match m !! key with
  | Some (Arr a) => (a, true)
  | _ => ([], false)
  end.

(** Reserved keys and type names of the SDK's [uast] package. *)
Definition KeyType : string := "@type".
Definition typeGroup : string := "uast:Group".
Definition typeFuncGroup : string := "uast:FunctionGroup".

(** Modelled from the spec: [uast.TypeOf] lives in the SDK.  The type
    discriminator of an Object is the string under its reserved type key;
    every other node has none (the empty string). *)
Definition TypeOf (n : Node) : string :=
  match n with
  | Obj obj => match obj !! KeyType with Some (Str tp) => tp | _ => "" end
  | _ => ""
  end.

(** Modelled from the spec: [uast.ToNode(uast.Group{})], the empty generic
    wrapper: an Object that carries the reserved Group type tag. *)
Definition emptyGroup : Object := {[ KeyType := Str typeGroup ]}.

(** [strings.HasSuffix]. *)
Definition HasSuffix (s suffix : string) : bool :=
  (String.length suffix <=? String.length s)%nat &&
  String.eqb
    (substring (String.length s - String.length suffix) (String.length suffix) s)
    suffix.

(** ** Errors, results and the match state *)

Inductive error : Type :=
| ErrUnexpectedType (expected got : Node)
| ErrorString (msg : string)
(* fmt.Errorf("expected %q field to be an array", field) *)
| ErrFieldNotArray (field : string)
(* a run-time panic: an unchecked type assertion that fails *)
| Panic.

Inductive res (A : Type) : Type :=
| Ok (a : A)
| Err (e : error).
Arguments Ok {A} a.
Arguments Err {A} e.

(** An operation on the match state [*State]: it fails with an error, or
    returns a value and the state as it left it. *)
Definition M (State A : Type) : Type := State -> res (A * State).

Definition ret {State A} (a : A) : M State A := fun st => Ok (a, st).

Definition fail {State A} (e : error) : M State A := fun _ => Err e.

Definition bind {State A B} (c : M State A) (k : A -> M State B) : M State B :=
  fun st =>
    match c st with
    | Ok (a, st') => k a st'
    | Err e => Err e
    end.

Notation "'let*' x ':=' c 'in' k" := (bind c (fun x => k))
  (at level 10, x name, c at level 100, k at level 200).

(** [if ok, err := c; err != nil || !ok { return ok, err }] followed by
    [return k]. *)
Definition andThen {State} (c k : M State bool) : M State bool :=
  let* ok := c in
  if ok then k else ret false.

(** The SDK's [Op] interface (its [Kinds] method plays no role here). *)
Record Op (State : Type) : Type := mkOp {
  Check : Node -> M State bool;
  Construct : Node -> M State Node
}.
Arguments mkOp {State} _ _.
Arguments Check {State} _ _ _.
Arguments Construct {State} _ _ _.

(** ** firstWithType *)

(** Index of the first node whose type passes the filter; [None] stands for
    the result -1. *)
Fixpoint firstWithType_from (i : nat) (arr : list Node) (fnc : string -> bool)
  : option nat :=
  match arr with
  | [] => None
  | sub :: tl =>
      if fnc (TypeOf sub) then Some i else firstWithType_from (S i) tl fnc
  end.

Definition firstWithType (arr : list Node) (fnc : string -> bool) : option nat :=
  firstWithType_from 0 arr fnc.

(** ** opArrHasKeyword *)

Section ArrHasKeyword.
Context {State : Type}.
Variable keyword : string.
Variables opHas opRest : Op State.

(** The [for i, n := range arr] loop of [Check], at index [i] with [todo]
    the elements not yet visited; [n0] is the node [Check] received. *)
Fixpoint opArrHasKeyword_scan (n0 : Node) (arr : list Node) (i : nat)
    (todo : list Node) : M State bool :=
  match todo with
  | [] =>
      (* not found, default to false *)
      andThen (Check opHas (Bool false)) (Check opRest n0)
  | n :: tl =>
      match n with
      | Obj obj =>
          match obj !! KeyType with
          | Some (Str typ) =>
              if String.eqb typ keyword then
                (* found the keyword *)
                andThen (Check opHas (Bool true))
                  (let rest := take i arr ++ drop (S i) arr in
                   Check opRest (Arr rest))
              else opArrHasKeyword_scan n0 arr (S i) tl
          | _ => opArrHasKeyword_scan n0 arr (S i) tl
          end
      | _ => opArrHasKeyword_scan n0 arr (S i) tl
      end
  end.

Definition opArrHasKeyword_Check (n : Node) : M State bool :=
  let '(arr, ok) := assertArray n in
  if negb ok && negb (sliceNil arr) then ret false
  else opArrHasKeyword_scan n (items arr) 0 (items arr).

Definition opArrHasKeyword_Construct (n : Node) : M State Node :=
  let* v := Construct opHas Null in
  match v with
  | Bool has =>
      let* n' := Construct opRest n in
      if negb has then ret n' else ret n'
  | _ => fail (ErrUnexpectedType (Bool false) v)
  end.

Definition opArrHasKeyword : Op State :=
  mkOp opArrHasKeyword_Check opArrHasKeyword_Construct.
End ArrHasKeyword.

(** ** dropNils *)

Section DropNils.
Context {State : Type}.
Variable op : Op State.

(** [for _, e := range arr { if e != nil { out = append(out, e) } }] *)
Fixpoint dropNils_loop (arr out : list Node) : list Node :=
  match arr with
  | [] => out
  | e :: tl =>
      if negb (isNil e) then dropNils_loop tl (out ++ [e])
      else dropNils_loop tl out
  end.

Definition dropNils_Check (n : Node) : M State bool :=
  let '(arr, ok) := assertArray n in
  if negb ok && negb (isNil n) then ret false
  else
    let out := dropNils_loop (items arr) [] in
    Check op (Arr out).

Definition dropNils_Construct (n : Node) : M State Node :=
  Construct op n.

Definition dropNils : Op State := mkOp dropNils_Check dropNils_Construct.
End DropNils.

(** ** opArrToChain *)

Section ArrToChain.
Context {State : Type}.
Variables opMods opType : Op State.

Definition opArrToChain_Check (n : Node) : M State bool :=
  (* var mods nodes.Array *)
  let mods : list Node := [] in
  andThen (Check opType n) (Check opMods (Arr mods)).

(** The [for _, nd := range mods] loop of [Construct]; [typ] is the node
    accumulated so far. *)
Fixpoint opArrToChain_wrap (mods : list Node) (typ : Node) : res Node :=
  match mods with
  | [] => Ok typ
  | nd :: tl =>
      match nd with
      | Obj mod_ =>
          match mod_ !! "Type" with
          | Some _ => Err (ErrorString "unexpected field in modifier: Type")
          | None => opArrToChain_wrap tl (Obj (<["Type" := typ]> mod_))
          end
      | _ => Err (ErrUnexpectedType (Obj ∅) nd)
      end
  end.

Definition opArrToChain_Construct (n : Node) : M State Node :=
  let* nd := Construct opMods Null in
  match nd with
  | Arr mods =>
      let* typ := Construct opType n in
      match opArrToChain_wrap mods typ with
      | Ok typ' => ret typ'
      | Err e => fail e
      end
  | _ => fail (ErrUnexpectedType (Arr []) nd)
  end.

Definition opArrToChain : Op State :=
  mkOp opArrToChain_Check opArrToChain_Construct.
End ArrToChain.

(** ** opMoveTrivias *)

(** triviaField specified a field with an array to put trivias into. *)
Definition triviaField : gmap string string :=
  <["Block" := "Statements"]> (<["CompilationUnit" := "Members"]> ∅).

(** The variables [obj], [leading], [trailing] and [modified] of
    [opMoveTrivias.Check]. *)
Record Trivias : Type := mkTrivias {
  tv_obj : Object;
  tv_leading : list Node;
  tv_trailing : list Node;
  tv_modified : bool
}.

(** The start of [Check]: the side-channel arrays are saved and wiped from
    the node. *)
Definition moveTrivias_cut (obj : Object) : Trivias :=
  let '(leading, ok1) := fieldArray obj "LeadingTrivia" in
  let '(trailing, ok2) := fieldArray obj "TrailingTrivia" in
  if ok1 || ok2 then
    mkTrivias (delete "TrailingTrivia" (delete "LeadingTrivia" obj))
      leading trailing true
  else mkTrivias obj leading trailing false.

(** One round of [for key, sub := range obj].  [src] is the map the loop
    ranges over; [sub] is read from it.  The loop writes only the entry of
    the key it is visiting, so an entry still to be visited reads the same
    in [src] and in the current [obj]. *)
Definition moveTrivias_visit (src : Object) (s : Trivias) (key : string)
  : Trivias :=
  match src !! key with
  | None => s
  | Some sub =>
      if negb (String.eqb key "ReturnType") &&
         negb (HasSuffix key "Token") &&
         negb (HasSuffix key "Keyword")
      then s
      else if negb (String.eqb (TypeOf sub) typeGroup) then s
      else
        match sub with
        | Obj group =>
            let '(arr, ok) := fieldArray group "Nodes" in
            if negb ok then s
            else
              match firstWithType arr (fun typ => negb (HasSuffix typ "Trivia")) with
              | None =>
                  (* cannot determine an index - pretend everything is a
                     leading trivia *)
                  mkTrivias (<[key := Null]> (tv_obj s))
                    (tv_leading s ++ arr) (tv_trailing s) true
              | Some ind =>
                  let node := default Null (arr !! ind) in
                  mkTrivias (<[key := node]> (tv_obj s))
                    (tv_leading s ++ take ind arr)
                    (drop (S ind) arr ++ tv_trailing s) true
              end
        | _ => s (* sub.(nodes.Object): only an Object has the Group type *)
        end
  end.

(** Steps 1 and 2 of the relocation.  Go ranges over a map in an order of
    its own choosing: [keys] is the order in which the loop visits the keys
    of the node. *)
Definition moveTrivias_collect (keys : list string) (obj : Object) : Trivias :=
  let s0 := moveTrivias_cut obj in
  foldl (moveTrivias_visit (tv_obj s0)) s0 keys.

(** [uast.ToNode(uast.Group{})] *)
Definition ToNode_Group : res Node := Ok (Obj emptyGroup).

Section MoveTrivias.
Context {State : Type}.
(** The order in which [range] visits the keys of a map. *)
Variable rangeOrder : Object -> list string.
Variable sub : Op State.

(** The rest of [Check], from [if len(leading) == 0 && len(trailing) == 0]. *)
Definition moveTrivias_place (s : Trivias) : M State bool :=
  let obj := tv_obj s in
  let leading := tv_leading s in
  let trailing := tv_trailing s in
  if (length leading =? 0)%nat && (length trailing =? 0)%nat then
    if negb (tv_modified s) then ret false (* unmodified *)
    else (* removed the trivia fields *) Check sub (Obj obj)
  else
    match triviaField !! TypeOf (Obj obj) with
    | Some field =>
        (* instead of wrapping the node, join trivias to a specified field *)
        let '(old, ok) := fieldArray obj field in
        if negb ok then fail (ErrFieldNotArray field)
        else
          let arr := leading ++ old ++ trailing in
          Check sub (Obj (<[field := Arr arr]> obj))
    | None =>
        (* wrap the node into a uast:Group *)
        let arr := leading ++ [Obj obj] ++ trailing in
        match ToNode_Group with
        | Err e => fail e
        | Ok (Obj group) => Check sub (Obj (<["Nodes" := Arr arr]> group))
        | Ok _ => fail Panic
        end
    end.

Definition opMoveTrivias_Check (n : Node) : M State bool :=
  match n with
  | Obj obj => moveTrivias_place (moveTrivias_collect (rangeOrder obj) obj)
  | _ => ret false
  end.

Definition opMoveTrivias_Construct (n : Node) : M State Node :=
  Construct sub n.

Definition opMoveTrivias : Op State :=
  mkOp opMoveTrivias_Check opMoveTrivias_Construct.
End MoveTrivias.

(** ** opMergeGroups *)

(** The loop of [checkFuncGroup] over the primary array.  [done] is
    [arr[:i]], already in its final form, and [todo] is [arr[i:]]; removing
    [arr[i]] (followed by [i--]) leaves [done] as it is, any other round
    moves one entry from [todo] to [done].  The result is the array and the
    [modified] flag. *)
Fixpoint checkFuncGroup_loop (done todo : list Node) (modified : bool)
  : res (list Node * bool) :=
  match todo with
  | [] => Ok (done, modified)
  | v :: tl =>
      if isNil v then checkFuncGroup_loop done tl true
      else
        match v with
        | Arr arr2 =>
            (* find a group node there *)
            match firstWithType arr2 (fun typ => String.eqb typ typeGroup) with
            | None => checkFuncGroup_loop (done ++ [v]) tl modified
            | Some ind =>
                match arr2 !! ind with
                | Some (Obj group) =>
                    let '(arr3, ok) := fieldArray group "Nodes" in
                    if negb ok then
                      Err (ErrorString "expected an array in Group.Nodes")
                    else
                      (* flatten inner array into the secondary array *)
                      let out := take ind arr2 ++ arr3 ++ drop (S ind) arr2 in
                      checkFuncGroup_loop (done ++ [Arr out]) tl true
                | _ => Err Panic
                end
            end
        | _ => checkFuncGroup_loop (done ++ [v]) tl modified
        end
  end.

Section MergeGroups.
Context {State : Type}.
Variable sub : Op State.

Definition checkGroup (group : Object) : M State bool :=
  let '(arr, ok) := fieldArray group "Nodes" in
  if negb ok then fail (ErrorString "expected an array in Group.Nodes")
  else
    match firstWithType arr (fun typ => String.eqb typ typeFuncGroup) with
    | None => ret false
    | Some ind =>
        let leading := take ind arr in
        match arr !! ind with
        | Some (Obj fgroup) =>
            let trailing := drop (S ind) arr in
            let '(arr', ok') := fieldArray fgroup "Nodes" in
            if negb ok' then fail (ErrorString "expected an array in Group.Nodes")
            else
              let out := leading ++ arr' ++ trailing in
              Check sub (Obj (<["Nodes" := Arr out]> fgroup))
        | _ => fail Panic
        end
    end.

Definition checkFuncGroup (fgroup : Object) : M State bool :=
  (* primary nodes array in the function group *)
  let '(arr, ok) := fieldArray fgroup "Nodes" in
  if negb ok then fail (ErrorString "expected an array in FuncGroup.Nodes")
  else
    match checkFuncGroup_loop [] arr false with
    | Err e => fail e
    | Ok (arr', modified) =>
        if negb modified then ret false
        else Check sub (Obj (<["Nodes" := Arr arr']> fgroup))
    end.

Definition opMergeGroups_Check (n : Node) : M State bool :=
  match n with
  | Obj group =>
      let typ := TypeOf (Obj group) in
      if String.eqb typ typeGroup then checkGroup group
      else if String.eqb typ typeFuncGroup then checkFuncGroup group
      else ret false
  | _ => ret false
  end.

Definition opMergeGroups_Construct (n : Node) : M State Node :=
  Construct sub n.

Definition opMergeGroups : Op State :=
  mkOp opMergeGroups_Check opMergeGroups_Construct.
End MergeGroups.

(** ** Properties named by the specification *)

(** An Object whose type discriminator equals the keyword [K]. *)
Definition isKeywordNode (K : string) (n : Node) : bool :=
  match n with
  | Obj obj =>
      match obj !! KeyType with
      | Some (Str typ) => String.eqb typ K
      | _ => false
      end
  | _ => false
  end.

(** Keyword extraction as the specification words it: the presence flag and
    the remainder, the array without its leftmost keyword element. *)
Definition extractKeyword (K : string) (arr : list Node) : bool * list Node :=
  match list_find (fun x => isKeywordNode K x = true) arr with
  | Some (i, _) => (true, delete i arr)
  | None => (false, arr)
  end.

(** The fields the relocator inspects for an earlier wrapper: the token and
    keyword naming convention, and the fixed extra field. *)
Definition isTokenKey (key : string) : bool :=
  String.eqb key "ReturnType" || HasSuffix key "Token" || HasSuffix key "Keyword".

(** A right-nested chain, written from the inside out: each wrapper holds
    what was built before it under its "Type" field, so the last wrapper of
    the list is the outermost one. *)
Definition chainOf (mods : list Object) (typ : Node) : Node :=
  foldl (fun acc m => Obj (<["Type" := acc]> m)) typ mods.

(** A slot of a FunctionGroup with its first Group element replaced in place
    by the contents of that Group's "Nodes"; any other entry is left as it
    is. *)
Definition spliceSlot (v : Node) : Node :=
  match v with
  | Arr arr2 =>
      match list_find (fun x => TypeOf x = typeGroup) arr2 with
      | Some (ind, Obj group) =>
          match group !! "Nodes" with
          | Some (Arr arr3) => Arr (take ind arr2 ++ arr3 ++ drop (S ind) arr2)
          | _ => v
          end
      | _ => v
      end
  | _ => v
  end.

(** The entry is a slot that holds a Group element. *)
Definition holdsGroup (v : Node) : bool :=
  match v with
  | Arr arr2 => bool_decide (Exists (fun x => TypeOf x = typeGroup) arr2)
  | _ => false
  end.

(** The first Group element of a slot, if there is one, has an array under
    "Nodes". *)
Definition slotSound (v : Node) : bool :=
  match v with
  | Arr arr2 =>
      match list_find (fun x => TypeOf x = typeGroup) arr2 with
      | Some (_, g) =>
          match g with
          | Obj group =>
              match group !! "Nodes" with Some (Arr _) => true | _ => false end
          | _ => false
          end
      | None => true
      end
  | _ => true
  end.

(** A node on which the group merger has nothing to do: neither kind of
    group, a Group whose "Nodes" holds no FunctionGroup, or a FunctionGroup
    whose "Nodes" holds no null entry and no slot with a Group. *)
Definition needsNoMerge (n : Node) : bool :=
  match n with
  | Obj group =>
      if String.eqb (TypeOf n) typeGroup then
        match group !! "Nodes" with
        | Some (Arr arr) =>
            bool_decide (Forall (fun x => TypeOf x <> typeFuncGroup) arr)
        | _ => false
        end
      else if String.eqb (TypeOf n) typeFuncGroup then
        match group !! "Nodes" with
        | Some (Arr arr) =>
            forallb (fun v => negb (isNil v) && negb (holdsGroup v)) arr
        | _ => false
        end
      else true
  | _ => true
  end.

(** ** Sub-patterns for the examples

    Small stand-ins for the SDK's base combinators, over a match state that
    is the store of captured variables. *)

Abbreviation Vars := (gmap string Node).

(** A named capture: [Check] binds the node (binding a name twice is an
    error), [Construct] emits the bound node. *)
Definition opVar (name : string) : Op Vars :=
  mkOp
    (fun n st =>
       match st !! name with
       | None => Ok (true, <[name := n]> st)
       | Some _ => Err (ErrorString "variable redeclared")
       end)
    (fun _ st =>
       match st !! name with
       | Some v => Ok (v, st)
       | None => Err (ErrorString "variable is not defined")
       end).

(** Matches exactly the boolean [b]. *)
Definition opIsBool (b : bool) : Op Vars :=
  mkOp
    (fun n => ret (match n with Bool b' => Bool.eqb b b' | _ => false end))
    (fun _ => ret (Bool b)).

(** An Object that has only a type discriminator. *)
Definition typed (typ : string) : Object := {[ KeyType := Str typ ]}.

(** The order of [map_to_list], one of the orders Go may pick. *)
Definition listOrder (m : Object) : list string := (map_to_list m).*1.

(** The modifiers and the base type of scenario 3. *)
Definition modRef : Object := typed "RefKeyword".
Definition modOut : Object := typed "OutKeyword".
Definition typInt : Node := Obj (typed "Int").

(** The variables as the Parameter mapping binds them for [opArrToChain]:
    the modifier list under "rest" and the terminal under "type". *)
Definition chainVars (mods : list Node) (typ : Node) : Vars :=
  <["rest" := Arr mods]> (<["type" := typ]> ∅).

Definition paramChain : Op Vars := opArrToChain (opVar "rest") (opVar "type").

(** ** Sample nodes for the examples *)

(** Scenario 2 of the specification: a Block with leading [C1], trailing
    [C2] and statements [S1]. *)
Definition sampleBlock : Object :=
  <["LeadingTrivia" := Arr [Obj (typed "CommentTrivia")]]>
    (<["TrailingTrivia" := Arr [Obj (typed "EndOfLineTrivia")]]>
       (<["Statements" := Arr [Obj (typed "ReturnStatement")]]> (typed "Block"))).

(** A FunctionGroup wrapped, with a comment, into a Group. *)
Definition sampleFuncGroup : Object :=
  <["Nodes" := Arr [Null; Obj (typed "uast:Alias")]]> (typed typeFuncGroup).

Definition sampleGroup : Object :=
  <["Nodes" := Arr [Obj (typed "CommentTrivia"); Obj sampleFuncGroup;
                    Obj (typed "EndOfLineTrivia")]]> emptyGroup.

(** A FunctionGroup with a deleted entry and a modifier slot that holds a
    Group left there by the trivia relocation. *)
Definition sampleSlots : list Node :=
  [ Null;
    Arr [Obj (typed "PublicKeyword");
         Obj (<["Nodes" := Arr [Obj (typed "CommentTrivia");
                                Obj (typed "StaticKeyword")]]> emptyGroup);
         Obj (typed "AsyncKeyword")];
    Null;
    Obj (typed "uast:Alias") ].

(** A block as the relocation leaves it, and a compacted FunctionGroup. *)
Definition settledBlock : Object :=
  <["Statements" := Arr [Obj (typed "CommentTrivia");
                         Obj (typed "ReturnStatement")]]>
    (<["OpenBraceToken" := Obj (typed "OpenBraceToken")]> (typed "Block")).

Definition settledFuncGroup : Node :=
  Obj (<["Nodes" := Arr [Arr [Obj (typed "PublicKeyword")];
                         Obj (typed "uast:Alias")]]> (typed typeFuncGroup)).

(** A Block whose statement list is missing, with a leading comment. *)
Definition brokenBlock : Object :=
  <["LeadingTrivia" := Arr [Obj (typed "CommentTrivia")]]> (typed "Block").

(** A modifier that already owns the chain field. *)
Definition ownedMod : Object := <["Type" := typInt]> modRef.

(** A statement whose keyword field was wrapped, with the trivia around the
    keyword, by an earlier visit. *)
Definition wrappedKeyword : Object :=
  <["Nodes" := Arr [Obj (typed "CommentTrivia"); Obj (typed "IfKeyword");
                    Obj (typed "WhitespaceTrivia")]]> emptyGroup.

Definition sampleIf : Object :=
  <["IfKeyword" := Obj wrappedKeyword]> (typed "IfStatement").

(** A token field whose wrapper holds trivia only. *)
Definition triviaOnly : Object :=
  <["Nodes" := Arr [Obj (typed "CommentTrivia");
                    Obj (typed "WhitespaceTrivia")]]> emptyGroup.

Definition sampleLost : Object :=
  <["SemicolonToken" := Obj triviaOnly]> (typed "EmptyStatement").

(** A node with two wrapped token fields. *)
Definition sampleTwoTokens : Object :=
  <["OpenParenToken" :=
      Obj (<["Nodes" := Arr [Obj (typed "CommentTrivia");
                             Obj (typed "OpenParenToken")]]> emptyGroup)]>
    (<["CloseParenToken" :=
         Obj (<["Nodes" := Arr [Obj (typed "RegionDirectiveTrivia");
                                Obj (typed "CloseParenToken")]]> emptyGroup)]>
       (typed "ArgumentList")).

(** A Group around a FunctionGroup that has no "Nodes", and a FunctionGroup
    with a slot whose Group has none. *)
Definition brokenGroup : Object :=
  <["Nodes" := Arr [Obj (typed "CommentTrivia"); Obj (typed typeFuncGroup)]]>
    emptyGroup.

Definition brokenFuncGroup : Object :=
  <["Nodes" := Arr [Null; Arr [Obj (typed "PublicKeyword"); Obj emptyGroup];
                    Obj (typed "uast:Alias")]]> (typed typeFuncGroup).

(** ** The relocation, field by field

    What the loop of [opMoveTrivias.Check] does to a node, told without the
    loop: for the amended statement of the trivia relocation. *)

(** The "Nodes" array of a value that is a Group. *)
Definition wrappedIn (v : Node) : option (list Node) :=
  match v with
  | Obj group =>
      if String.eqb (TypeOf v) typeGroup then
        match group !! "Nodes" with
        | Some (Arr arr) => Some arr
        | _ => None
        end
      else None
  | _ => None
  end.

(** The array of the Group an inspected field holds, if it holds one. *)
Definition wrappedNodes (obj : Object) (key : string) : option (list Node) :=
  if isTokenKey key then obj !! key ≫= wrappedIn else None.

Definition notTrivia (typ : string) : bool := negb (HasSuffix typ "Trivia").

(** The element of a wrapper that goes back under the field: the first one
    whose type does not end in "Trivia", nil when there is none. *)
Definition tokenOf (arr : list Node) : Node :=
  match firstWithType arr notTrivia with
  | Some ind => default Null (arr !! ind)
  | None => Null
  end.

(** The elements of a wrapper that join the leading list, and those that
    join the trailing list. *)
Definition leadPart (arr : list Node) : list Node :=
  match firstWithType arr notTrivia with
  | Some ind => take ind arr
  | None => arr
  end.

Definition trailPart (arr : list Node) : list Node :=
  match firstWithType arr notTrivia with
  | Some ind => drop (S ind) arr
  | None => []
  end.

(** One of the two side-channel fields holds an array. *)
Definition sideCut (obj : Object) : bool :=
  (fieldArray obj "LeadingTrivia").2 || (fieldArray obj "TrailingTrivia").2.

(** The node as the relocation leaves it: without its two side-channel
    fields when one of them holds an array, and with every inspected field
    that holds a Group holding instead the element that goes back under
    it. *)
Definition relocatedNode (obj : Object) : Object :=
  map_imap
    (fun k v =>
       if sideCut obj && (String.eqb k "LeadingTrivia" || String.eqb k "TrailingTrivia")
       then None
       else match wrappedNodes obj k with
            | Some arr => Some (tokenOf arr)
            | None => Some v
            end)
    obj.

(** An empty statement with a leading comment, whose semicolon field holds a
    wrapper with trivia only; a method whose return type was wrapped; a
    block whose modifiers field, which the relocator does not inspect, holds
    a wrapper. *)
Definition sampleLostLeading : Object :=
  <["LeadingTrivia" := Arr [Obj (typed "DocumentationCommentTrivia")]]> sampleLost.



(** * Proofs *)

(** ** The state monad *)

Lemma andThen_true {State} (c k : M State bool) (st st' : State) :
  andThen c k st = Ok (true, st') <->
  exists st1, c st = Ok (true, st1) /\ k st1 = Ok (true, st').
Proof.
  unfold andThen, bind, ret. split.
  - destruct (c st) as [[[|] st1]|e]; intros H; try discriminate.
    exists st1. split; [reflexivity | exact H].
  - intros (st1 & -> & Hk). exact Hk.
Qed.

(** ** firstWithType *)

Lemma firstWithType_from_find (fnc : string -> bool) (arr : list Node) (i : nat) :
  firstWithType_from i arr fnc =
  (fun p => i + p.1) <$> list_find (fun x => fnc (TypeOf x) = true) arr.
Proof.
  revert i. induction arr as [|x tl IH]; intros i; simpl; [reflexivity|].
  destruct (fnc (TypeOf x)) eqn:Hx.
  - rewrite decide_True by reflexivity. simpl. f_equal. lia.
  - rewrite decide_False by discriminate. rewrite IH.
    destruct (list_find _ tl) as [[j y]|]; simpl; [f_equal; lia | reflexivity].
Qed.

Lemma firstWithType_find (fnc : string -> bool) (arr : list Node) :
  firstWithType arr fnc = fst <$> list_find (fun x => fnc (TypeOf x) = true) arr.
Proof.
  unfold firstWithType. rewrite firstWithType_from_find.
  destruct (list_find _ arr) as [[j y]|]; reflexivity.
Qed.

Lemma firstWithType_app (fnc : string -> bool) (pre post : list Node) (x : Node) :
  Forall (fun y => fnc (TypeOf y) = false) pre ->
  fnc (TypeOf x) = true ->
  firstWithType (pre ++ x :: post) fnc = Some (length pre).
Proof.
  intros Hpre Hx. unfold firstWithType.
  assert (G : forall i, firstWithType_from i (pre ++ x :: post) fnc
                        = Some (i + length pre)).
  { induction Hpre as [|y pre Hy _ IH]; intros i; simpl.
    - rewrite Hx. f_equal. lia.
    - rewrite Hy, IH. f_equal. lia. }
  apply G.
Qed.

Lemma firstWithType_none (fnc : string -> bool) (arr : list Node) :
  Forall (fun y => fnc (TypeOf y) = false) arr ->
  firstWithType arr fnc = None.
Proof.
  intros H. unfold firstWithType. generalize 0.
  induction H as [|y tl Hy _ IH]; intros i; simpl; [reflexivity|].
  rewrite Hy. apply IH.
Qed.

Lemma TypeOf_nonempty_Obj (n : Node) :
  TypeOf n <> "" -> exists obj, n = Obj obj.
Proof. destruct n; simpl; try congruence. eauto. Qed.

(** The element found for a type name is an Object: the unchecked
    assertions [arr[ind].(nodes.Object)] of the group merger do not panic. *)
Lemma firstWithType_eqb_Obj (T : string) (arr : list Node) (ind : nat) :
  T <> "" ->
  firstWithType arr (fun typ => String.eqb typ T) = Some ind ->
  exists obj, arr !! ind = Some (Obj obj).
Proof.
  intros HT H. rewrite firstWithType_find in H.
  destruct (list_find _ arr) as [[j x]|] eqn:E; [|discriminate H].
  injection H as <-. apply list_find_Some in E as (Hx & Heq & _).
  apply String.eqb_eq in Heq.
  destruct (TypeOf_nonempty_Obj x) as [obj ->]; [congruence|eauto].
Qed.

(** ** opArrHasKeyword *)

Section ArrHasKeywordFacts.
Context {State : Type}.
Variable K : string.
Variables opHas opRest : Op State.

Lemma opArrHasKeyword_scan_find (n0 : Node) (pre todo : list Node) :
  opArrHasKeyword_scan K opHas opRest n0 (pre ++ todo) (length pre) todo =
  match list_find (fun x => isKeywordNode K x = true) todo with
  | Some (j, _) =>
      andThen (Check opHas (Bool true))
        (Check opRest (Arr (pre ++ delete j todo)))
  | None => andThen (Check opHas (Bool false)) (Check opRest n0)
  end.
Proof.
  revert pre. induction todo as [|x tl IH]; intros pre; [reflexivity|].
  assert (Hnext :
    opArrHasKeyword_scan K opHas opRest n0 (pre ++ x :: tl) (S (length pre)) tl =
    match list_find (fun y => isKeywordNode K y = true) tl with
    | Some (j, _) =>
        andThen (Check opHas (Bool true))
          (Check opRest (Arr (pre ++ x :: delete j tl)))
    | None => andThen (Check opHas (Bool false)) (Check opRest n0)
    end).
  { specialize (IH (pre ++ [x])). rewrite <- !app_assoc in IH. simpl in IH.
    rewrite length_app in IH. simpl in IH.
    replace (length pre + 1) with (S (length pre)) in IH by lia.
    rewrite IH. destruct (list_find _ tl) as [[j y]|]; [|reflexivity].
    rewrite <- app_assoc. reflexivity. }
  assert (Hskip : isKeywordNode K x = false ->
    opArrHasKeyword_scan K opHas opRest n0 (pre ++ x :: tl) (length pre) (x :: tl) =
    opArrHasKeyword_scan K opHas opRest n0 (pre ++ x :: tl) (S (length pre)) tl).
  { unfold isKeywordNode. simpl. destruct x as [| | | | |a|obj]; try reflexivity.
    destruct (obj !! KeyType) as [[| | | |typ| |]|]; try reflexivity.
    intros ->. reflexivity. }
  destruct (isKeywordNode K x) eqn:Hx.
  - simpl list_find. rewrite decide_True by exact Hx. simpl.
    unfold isKeywordNode in Hx. destruct x as [| | | | |a|obj]; try discriminate.
    destruct (obj !! KeyType) as [[| | | |typ| |]|] eqn:Ht; try discriminate.
    rewrite Hx. rewrite take_app_length.
    replace (drop (S (length pre)) (pre ++ Obj obj :: tl)) with tl; [reflexivity|].
    rewrite drop_app_ge by lia.
    replace (S (length pre) - length pre) with 1 by lia. reflexivity.
  - rewrite (Hskip eq_refl), Hnext. simpl list_find.
    rewrite decide_False by (rewrite Hx; discriminate).
    destruct (list_find _ tl) as [[j y]|]; reflexivity.
Qed.

End ArrHasKeywordFacts.

(** C2. Keyword extraction.  On an Array input [opArrHasKeyword.Check]
    requires the flag sub-pattern to match the presence flag and then the
    remainder sub-pattern to match the remainder: flag false and the array
    unchanged when no element is an Object of type [K], flag true and the
    array without its leftmost such element otherwise.  The match succeeds
    exactly when both sub-matches succeed. *)
Theorem opArrHasKeyword_Check_extracts {State : Type} (K : string)
    (opHas opRest : Op State) (arr : list Node) (st : State) :
  let flag := (extractKeyword K arr).1 in
  let rest := (extractKeyword K arr).2 in
  Check (opArrHasKeyword K opHas opRest) (Arr arr) st =
    andThen (Check opHas (Bool flag)) (Check opRest (Arr rest)) st
  /\ forall st',
       Check (opArrHasKeyword K opHas opRest) (Arr arr) st = Ok (true, st') <->
       exists st1, Check opHas (Bool flag) st = Ok (true, st1) /\
                   Check opRest (Arr rest) st1 = Ok (true, st').
Proof.
  intros flag rest.
  assert (E : Check (opArrHasKeyword K opHas opRest) (Arr arr) st =
              andThen (Check opHas (Bool flag)) (Check opRest (Arr rest)) st).
  { simpl. unfold opArrHasKeyword_Check. simpl.
    pose proof (opArrHasKeyword_scan_find K opHas opRest (Arr arr) [] arr) as H.
    simpl in H. rewrite H. subst flag rest. unfold extractKeyword.
    destruct (list_find _ arr) as [[j y]|]; reflexivity. }
  split; [exact E|]. intros st'. rewrite E. apply andThen_true.
Qed.

(** The leftmost keyword element: what [extractKeyword] removes. *)
Lemma extractKeyword_present (K : string) (arr : list Node) (i : nat) (x : Node) :
  arr !! i = Some x -> isKeywordNode K x = true ->
  (forall j y, arr !! j = Some y -> j < i -> isKeywordNode K y = false) ->
  extractKeyword K arr = (true, take i arr ++ drop (S i) arr).
Proof.
  intros Hi Hx Hlt. unfold extractKeyword.
  assert (H : list_find (fun x => isKeywordNode K x = true) arr = Some (i, x)).
  { apply list_find_Some. split; [exact Hi|]. split; [exact Hx|].
    intros j y Hj Hji. rewrite (Hlt j y Hj Hji). discriminate. }
  rewrite H. f_equal. apply delete_take_drop.
Qed.

Lemma extractKeyword_absent (K : string) (arr : list Node) :
  Forall (fun x => isKeywordNode K x = false) arr ->
  extractKeyword K arr = (false, arr).
Proof.
  intros H. unfold extractKeyword.
  assert (E : list_find (fun x => isKeywordNode K x = true) arr = None).
  { apply list_find_None. eapply Forall_impl; [exact H|].
    simpl. intros x ->. discriminate. }
  rewrite E. reflexivity.
Qed.

(** Scenario 1 of the specification. *)
Example opArrHasKeyword_scenario1 :
  let a := Obj (<["@token" := Str "a"]> (typed "Comment")) in
  let b := Obj (<["@token" := Str "b"]> (typed "Comment")) in
  Check (opArrHasKeyword "Keyword" (opVar "flag") (opVar "rest"))
    (Arr [a; Obj (typed "Keyword"); b]) ∅
  = Ok (true, <["rest" := Arr [a; b]]> (<["flag" := Bool true]> ∅)).
Proof. vm_compute. reflexivity. Qed.

(** The remainder is not looked at once the flag sub-pattern has refused. *)
Example opArrHasKeyword_flag_refused :
  Check (opArrHasKeyword "Keyword" (opIsBool false) (opVar "rest"))
    (Arr [Obj (typed "Keyword")]) ∅
  = Ok (false, ∅).
Proof. vm_compute. reflexivity. Qed.

(** The kind test at the head of [Check] lets every node through: after a
    failed assertion [arr] is the nil slice, so [!ok && arr != nil] is
    false. *)
Lemma opArrHasKeyword_Check_any_kind {State : Type} (K : string)
    (opHas opRest : Op State) (n : Node) (st : State) :
  (forall arr, n <> Arr arr) ->
  Check (opArrHasKeyword K opHas opRest) n st =
  andThen (Check opHas (Bool false)) (Check opRest n) st.
Proof.
  intros H. destruct n; try reflexivity. exfalso. exact (H _ eq_refl).
Qed.

(** C8. The guard of [opArrHasKeyword.Check] never fires: on an input that
    is not an Array the flag sub-pattern is checked against false and the
    remainder sub-pattern against the input itself, and the match
    succeeds. *)
Theorem opArrHasKeyword_Check_not_array :
  Check (opArrHasKeyword "ParamsKeyword" (opVar "variadic") (opVar "rest"))
    (Str "x") ∅
  = Ok (true, <["rest" := Str "x"]> (<["variadic" := Bool false]> ∅)).
Proof. vm_compute. reflexivity. Qed.

(** ** dropNils *)

Lemma dropNils_loop_filter (arr out : list Node) :
  dropNils_loop arr out = out ++ filter (fun e => isNil e = false) arr.
Proof.
  revert out. induction arr as [|e tl IH]; intros out; simpl.
  - rewrite app_nil_r. reflexivity.
  - destruct (isNil e) eqn:He; simpl; rewrite IH.
    + rewrite filter_cons_False by (rewrite He; discriminate). reflexivity.
    + rewrite filter_cons_True by exact He.
      rewrite <- app_assoc. reflexivity.
Qed.

(** C10. [dropNils.Check] reports no-match, without an error, on every input
    that is neither nil nor an Array; a nil input is not a mismatch: the
    sub-pattern is checked against the empty array.  (An Array is handed on
    without its nil entries.) *)
Theorem dropNils_Check_kinds {State : Type} (op : Op State) (n : Node) (st : State) :
  Check (dropNils op) n st =
  match n with
  | Null => Check op (Arr []) st
  | Arr arr => Check op (Arr (filter (fun e => isNil e = false) arr)) st
  | _ => Ok (false, st)
  end.
Proof.
  destruct n; try reflexivity.
  simpl. unfold dropNils_Check. simpl. rewrite dropNils_loop_filter. reflexivity.
Qed.

(** ** opArrToChain *)

Lemma opArrToChain_wrap_chainOf (mods : list Object) (typ : Node) :
  Forall (fun m : Object => m !! "Type" = None) mods ->
  opArrToChain_wrap (Obj <$> mods) typ = Ok (chainOf mods typ).
Proof.
  intros H. revert typ. induction H as [|m tl Hm _ IH]; intros typ; simpl.
  - reflexivity.
  - rewrite Hm. apply IH.
Qed.

Lemma opArrToChain_wrap_owned (mods : list Node) (typ : Node) :
  Exists (fun nd => exists m : Object, nd = Obj m /\ is_Some (m !! "Type")) mods ->
  exists e, opArrToChain_wrap mods typ = Err e.
Proof.
  intros H. revert typ. induction H as [nd tl (m & -> & [v Hv])|nd tl _ IH];
    intros typ; simpl.
  - rewrite Hv. eauto.
  - destruct nd as [| | | | | |m]; eauto.
    destruct (m !! "Type"); eauto.
Qed.

Lemma chainOf_snoc (mods : list Object) (m : Object) (typ : Node) :
  chainOf (mods ++ [m]) typ = Obj (<["Type" := chainOf mods typ]> m).
Proof. unfold chainOf. rewrite foldl_app. reflexivity. Qed.

(** C3 fails as stated: for the list [ref; out] around Int the code does not
    build ref(out(Int)). *)
Lemma opArrToChain_Construct_not_ref_out :
  Construct paramChain Null (chainVars [Obj modRef; Obj modOut] typInt)
  <> Ok (Obj (<["Type" := Obj (<["Type" := typInt]> modOut)]> modRef),
         chainVars [Obj modRef; Obj modOut] typInt).
Proof.
  intros H. vm_compute in H. discriminate H.
Qed.

(** C3 (amended).  [opArrToChain.Construct] on a two-element modifier list
    [m1; m2] and a terminal [t] builds m2(m1(t)): the first modifier holds
    the terminal under "Type" and the last modifier of the list is the
    outermost wrapper.  For [ref; out] around Int this is out(ref(Int)). *)
Theorem opArrToChain_Construct_last_outermost {State : Type}
    (opMods opType : Op State) (n t : Node) (m1 m2 : Object) (st st1 st2 : State) :
  Construct opMods Null st = Ok (Arr [Obj m1; Obj m2], st1) ->
  Construct opType n st1 = Ok (t, st2) ->
  m1 !! "Type" = None ->
  m2 !! "Type" = None ->
  Construct (opArrToChain opMods opType) n st =
  Ok (Obj (<["Type" := Obj (<["Type" := t]> m1)]> m2), st2).
Proof.
  intros Hmods Htyp H1 H2. simpl. unfold opArrToChain_Construct, bind.
  rewrite Hmods, Htyp. simpl. rewrite H1, H2. reflexivity.
Qed.

Lemma opArrToChain_Construct_last_outermost_witness :
  Construct paramChain Null (chainVars [Obj modRef; Obj modOut] typInt) =
  Ok (Obj (<["Type" := Obj (<["Type" := typInt]> modRef)]> modOut),
      chainVars [Obj modRef; Obj modOut] typInt).
Proof.
  apply (opArrToChain_Construct_last_outermost (opVar "rest") (opVar "type")
           Null typInt modRef modOut _
           (chainVars [Obj modRef; Obj modOut] typInt));
    vm_compute; reflexivity.
Defined.

Lemma chainVars_decode (n : Node) :
  Check paramChain n ∅ = Ok (true, chainVars [] n).
Proof.
  unfold paramChain. simpl. unfold opArrToChain_Check, andThen, bind. simpl.
  rewrite lookup_empty. rewrite lookup_insert_ne by discriminate.
  rewrite lookup_empty. reflexivity.
Qed.

Lemma chainVars_encode (mods : list Object) (t : Node) :
  Forall (fun m : Object => m !! "Type" = None) mods ->
  Construct paramChain Null (chainVars (Obj <$> mods) t) =
  Ok (chainOf mods t, chainVars (Obj <$> mods) t).
Proof.
  intros H. unfold paramChain. simpl. unfold opArrToChain_Construct, bind. simpl.
  unfold chainVars at 1. rewrite lookup_insert_eq.
  unfold chainVars at 1. rewrite lookup_insert_ne by discriminate.
  rewrite lookup_insert_eq.
  rewrite (opArrToChain_wrap_chainOf mods t H). reflexivity.
Qed.

(** C4 fails as stated: with one modifier layer, decoding the encoded chain
    binds the empty modifier list and the whole chain as the terminal, not
    the pair that was encoded. *)
Lemma opArrToChain_roundtrip_one_layer_lost :
  Construct paramChain Null (chainVars [Obj modRef] typInt) =
    Ok (chainOf [modRef] typInt, chainVars [Obj modRef] typInt)
  /\ Check paramChain (chainOf [modRef] typInt) ∅ =
       Ok (true, chainVars [] (chainOf [modRef] typInt))
  /\ chainVars [] (chainOf [modRef] typInt) <> chainVars [Obj modRef] typInt.
Proof.
  split; [vm_compute; reflexivity|]. split; [vm_compute; reflexivity|].
  intros H. apply (f_equal (fun m : Vars => m !! "rest")) in H.
  vm_compute in H. discriminate H.
Qed.

(** C4 (amended).  [opArrToChain.Check] peels no wrapper: it checks the
    terminal sub-pattern against the whole node and the modifiers
    sub-pattern against the empty list.  So encoding then decoding recovers
    the pair for the empty modifier list only; a chain of one or more layers
    decodes to the empty list and the whole chain; and decoding then
    encoding returns the original node, whatever its nesting. *)
Theorem opArrToChain_roundtrip :
  (forall (State : Type) (opMods opType : Op State) (n : Node) (st : State),
     Check (opArrToChain opMods opType) n st =
     andThen (Check opType n) (Check opMods (Arr [])) st)
  /\ (forall t : Node,
        Construct paramChain Null (chainVars [] t) = Ok (t, chainVars [] t) /\
        Check paramChain t ∅ = Ok (true, chainVars [] t))
  /\ (forall (mods : list Object) (t : Node),
        Forall (fun m : Object => m !! "Type" = None) mods ->
        Construct paramChain Null (chainVars (Obj <$> mods) t) =
          Ok (chainOf mods t, chainVars (Obj <$> mods) t) /\
        Check paramChain (chainOf mods t) ∅ =
          Ok (true, chainVars [] (chainOf mods t)))
  /\ (forall n : Node,
        Check paramChain n ∅ = Ok (true, chainVars [] n) /\
        Construct paramChain Null (chainVars [] n) = Ok (n, chainVars [] n)).
Proof.
  split; [reflexivity|].
  split; [intros t; split; [apply (chainVars_encode [] t); constructor
                           | apply chainVars_decode]|].
  split; [intros mods t H; split; [apply chainVars_encode; exact H
                                  | apply chainVars_decode]|].
  intros n. split; [apply chainVars_decode|].
  apply (chainVars_encode [] n). constructor.
Qed.

Lemma opArrToChain_roundtrip_witness :
  Construct paramChain Null (chainVars [Obj modRef; Obj modOut] typInt) =
    Ok (chainOf [modRef; modOut] typInt,
        chainVars [Obj modRef; Obj modOut] typInt) /\
  Check paramChain (chainOf [modRef; modOut] typInt) ∅ =
    Ok (true, chainVars [] (chainOf [modRef; modOut] typInt)).
Proof.
  apply (proj1 (proj2 (proj2 opArrToChain_roundtrip)) [modRef; modOut] typInt).
  repeat constructor.
Defined.

(** ** opMoveTrivias *)

Lemma triviaField_cases (typ field : string) :
  triviaField !! typ = Some field ->
  field = "Statements" \/ field = "Members".
Proof.
  unfold triviaField. intros H.
  apply lookup_insert_Some in H as [[_ <-]|[_ H]]; [left; reflexivity|].
  apply lookup_insert_Some in H as [[_ <-]|[_ H]]; [right; reflexivity|].
  rewrite lookup_empty in H. discriminate H.
Qed.

Lemma isTokenKey_guard (key : string) :
  negb (String.eqb key "ReturnType") && negb (HasSuffix key "Token") &&
  negb (HasSuffix key "Keyword") = negb (isTokenKey key).
Proof.
  unfold isTokenKey.
  destruct (String.eqb key "ReturnType"), (HasSuffix key "Token"),
    (HasSuffix key "Keyword"); reflexivity.
Qed.

Lemma moveTrivias_cut_lookup (obj : Object) (k : string) :
  k <> "LeadingTrivia" -> k <> "TrailingTrivia" ->
  tv_obj (moveTrivias_cut obj) !! k = obj !! k.
Proof.
  intros H1 H2. unfold moveTrivias_cut.
  destruct (fieldArray obj "LeadingTrivia") as [l ok1].
  destruct (fieldArray obj "TrailingTrivia") as [t ok2].
  destruct (ok1 || ok2); simpl; [|reflexivity].
  rewrite lookup_delete_ne by congruence.
  rewrite lookup_delete_ne by congruence. reflexivity.
Qed.

Lemma moveTrivias_cut_no_arrays (obj : Object) :
  fieldArray (tv_obj (moveTrivias_cut obj)) "LeadingTrivia" = ([], false) /\
  fieldArray (tv_obj (moveTrivias_cut obj)) "TrailingTrivia" = ([], false).
Proof.
  unfold moveTrivias_cut, fieldArray.
  destruct (obj !! "LeadingTrivia") as [[| | | | |l|]|] eqn:E1;
    destruct (obj !! "TrailingTrivia") as [[| | | | |t|]|] eqn:E2; simpl;
    rewrite ?lookup_delete_eq, ?E1, ?E2;
    rewrite ?(lookup_delete_ne (delete "LeadingTrivia" obj)) by discriminate;
    rewrite ?lookup_delete_eq; split; reflexivity.
Qed.

Lemma moveTrivias_visit_other (src : Object) (s : Trivias) (key k : string) :
  isTokenKey k = false ->
  tv_obj (moveTrivias_visit src s key) !! k = tv_obj s !! k.
Proof.
  intros Hk. unfold moveTrivias_visit.
  destruct (src !! key) as [sub|]; [|reflexivity].
  rewrite isTokenKey_guard.
  destruct (isTokenKey key) eqn:Hkey; simpl; [|reflexivity].
  assert (Hne : key <> k) by congruence.
  destruct (negb (TypeOf sub =? typeGroup)%string); [reflexivity|].
  destruct sub as [| | | | | |group]; try reflexivity.
  destruct (fieldArray group "Nodes") as [arr ok].
  destruct ok; simpl; [|reflexivity].
  destruct (firstWithType arr _); simpl; rewrite lookup_insert_ne by exact Hne;
    reflexivity.
Qed.

Lemma moveTrivias_fold_other (src : Object) (keys : list string) (s : Trivias)
    (k : string) :
  isTokenKey k = false ->
  tv_obj (foldl (moveTrivias_visit src) s keys) !! k = tv_obj s !! k.
Proof.
  intros Hk. revert s. induction keys as [|key tl IH]; intros s; simpl.
  - reflexivity.
  - rewrite IH. apply moveTrivias_visit_other. exact Hk.
Qed.

Lemma moveTrivias_collect_lookup (keys : list string) (obj : Object) (k : string) :
  isTokenKey k = false -> k <> "LeadingTrivia" -> k <> "TrailingTrivia" ->
  tv_obj (moveTrivias_collect keys obj) !! k = obj !! k.
Proof.
  intros Hk H1 H2. unfold moveTrivias_collect.
  rewrite moveTrivias_fold_other by exact Hk.
  apply moveTrivias_cut_lookup; assumption.
Qed.

Lemma moveTrivias_collect_no_arrays (keys : list string) (obj : Object) :
  fieldArray (tv_obj (moveTrivias_collect keys obj)) "LeadingTrivia" = ([], false) /\
  fieldArray (tv_obj (moveTrivias_collect keys obj)) "TrailingTrivia" = ([], false).
Proof.
  destruct (moveTrivias_cut_no_arrays obj) as [H1 H2].
  unfold moveTrivias_collect. unfold fieldArray in *.
  rewrite !moveTrivias_fold_other by reflexivity.
  split; assumption.
Qed.

Lemma moveTrivias_collect_TypeOf (keys : list string) (obj : Object) :
  TypeOf (Obj (tv_obj (moveTrivias_collect keys obj))) = TypeOf (Obj obj).
Proof.
  simpl. rewrite moveTrivias_collect_lookup; [reflexivity| reflexivity | |];
    discriminate.
Qed.

Lemma moveTrivias_collect_field (keys : list string) (obj : Object)
    (typ field : string) :
  triviaField !! typ = Some field ->
  tv_obj (moveTrivias_collect keys obj) !! field = obj !! field.
Proof.
  intros H. apply triviaField_cases in H as [->| ->];
    (apply moveTrivias_collect_lookup; [reflexivity| |]; discriminate).
Qed.

Lemma TypeOf_insert_field (obj : Object) (typ field : string) (v : Node) :
  triviaField !! typ = Some field ->
  TypeOf (Obj (<[field := v]> obj)) = TypeOf (Obj obj).
Proof.
  intros H. simpl. apply triviaField_cases in H as [->| ->];
    rewrite lookup_insert_ne by discriminate; reflexivity.
Qed.

Lemma moveTrivias_held (L T : list Node) :
  L <> [] \/ T <> [] ->
  (length L =? 0)%nat && (length T =? 0)%nat = false.
Proof.
  intros [H|H]; destruct L, T; simpl; try reflexivity; congruence.
Qed.

(** When no inspected field holds a Group, the loop over the fields leaves
    the node, the held lists and the flag as the cut produced them. *)
Lemma moveTrivias_visit_noop (src : Object) (s : Trivias) (key : string) :
  (forall v, src !! key = Some v -> isTokenKey key = true ->
             TypeOf v <> typeGroup) ->
  moveTrivias_visit src s key = s.
Proof.
  intros H. unfold moveTrivias_visit.
  destruct (src !! key) as [sub|]; [|reflexivity].
  rewrite isTokenKey_guard.
  destruct (isTokenKey key) eqn:Hkey; simpl; [|reflexivity].
  specialize (H sub eq_refl eq_refl).
  destruct (String.eqb_spec (TypeOf sub) typeGroup) as [E|_]; [contradiction|].
  reflexivity.
Qed.

Lemma moveTrivias_fold_noop (src : Object) (keys : list string) (s : Trivias) :
  (forall key v, src !! key = Some v -> isTokenKey key = true ->
                 TypeOf v <> typeGroup) ->
  foldl (moveTrivias_visit src) s keys = s.
Proof.
  intros H. induction keys as [|key tl IH]; simpl; [reflexivity|].
  rewrite moveTrivias_visit_noop; [exact IH|]. intros v. apply H.
Qed.

Lemma moveTrivias_cut_token (obj : Object) (k : string) :
  isTokenKey k = true ->
  tv_obj (moveTrivias_cut obj) !! k = obj !! k.
Proof.
  intros H. apply moveTrivias_cut_lookup; intros ->; discriminate H.
Qed.

(** The plain case of the relocation: nothing to unwrap in the token fields,
    so the node is only stripped of its two side-channel fields and the held
    lists are their contents. *)
Lemma moveTrivias_collect_plain (keys : list string) (obj : Object) :
  (forall key v, obj !! key = Some v -> isTokenKey key = true ->
                 TypeOf v <> typeGroup) ->
  moveTrivias_collect keys obj = moveTrivias_cut obj.
Proof.
  intros H. unfold moveTrivias_collect. apply moveTrivias_fold_noop.
  intros key v Hv Hkey. apply (H key v); [|exact Hkey].
  rewrite <- Hv. symmetry. apply moveTrivias_cut_token. exact Hkey.
Qed.

(** The placement step, in terms of the loop.  Let L and T be the leading
    and trailing lists the relocator holds after it has cut the side-channel
    fields and unwrapped the token fields of an Object, at least one of them
    not empty, and let [node] be the Object as that extraction leaves it.  If
    the type of the node has a designated field holding an array, [Check]
    hands on the node with that field replaced by L ++ contents ++ T, and
    the node keeps its type: it is not wrapped.  Otherwise [Check] hands on a
    new Group whose "Nodes" is exactly L ++ [node] ++ T.  The node no longer
    has a side-channel array, and its other fields, the token fields apart,
    are those of the input. *)
Theorem opMoveTrivias_Check_places {State : Type}
    (rangeOrder : Object -> list string) (sub : Op State)
    (obj : Object) (st : State) :
  let s := moveTrivias_collect (rangeOrder obj) obj in
  let L := tv_leading s in
  let T := tv_trailing s in
  let node := tv_obj s in
  L <> [] \/ T <> [] ->
  (forall field old,
      triviaField !! TypeOf (Obj obj) = Some field ->
      obj !! field = Some (Arr old) ->
      Check (opMoveTrivias rangeOrder sub) (Obj obj) st =
        Check sub (Obj (<[field := Arr (L ++ old ++ T)]> node)) st /\
      TypeOf (Obj (<[field := Arr (L ++ old ++ T)]> node)) = TypeOf (Obj obj))
  /\ (triviaField !! TypeOf (Obj obj) = None ->
      Check (opMoveTrivias rangeOrder sub) (Obj obj) st =
        Check sub (Obj (<["Nodes" := Arr (L ++ [Obj node] ++ T)]> emptyGroup)) st /\
      TypeOf (Obj (<["Nodes" := Arr (L ++ [Obj node] ++ T)]> emptyGroup)) = typeGroup)
  /\ fieldArray node "LeadingTrivia" = ([], false)
  /\ fieldArray node "TrailingTrivia" = ([], false)
  /\ (forall k, isTokenKey k = false ->
                k <> "LeadingTrivia" -> k <> "TrailingTrivia" ->
                node !! k = obj !! k)
  /\ ((forall key v, obj !! key = Some v -> isTokenKey key = true ->
                     TypeOf v <> typeGroup) ->
      node = delete "TrailingTrivia" (delete "LeadingTrivia" obj) /\
      L = (fieldArray obj "LeadingTrivia").1 /\
      T = (fieldArray obj "TrailingTrivia").1).
Proof.
  intros s L T node Hheld.
  assert (Hplace : Check (opMoveTrivias rangeOrder sub) (Obj obj) st =
                   moveTrivias_place sub s st) by reflexivity.
  assert (Htyp : TypeOf (Obj node) = TypeOf (Obj obj))
    by apply moveTrivias_collect_TypeOf.
  split; [|split; [|split; [|split; [|split]]]].
  - intros field old Hfield Hold. split.
    + rewrite Hplace. unfold moveTrivias_place.
      fold L T node. rewrite (moveTrivias_held L T Hheld).
      rewrite Htyp, Hfield. unfold fieldArray.
      unfold node, s.
      rewrite (moveTrivias_collect_field _ _ _ _ Hfield), Hold. reflexivity.
    + rewrite (TypeOf_insert_field _ _ _ _ Hfield). exact Htyp.
  - intros Hnone. split; [|reflexivity].
    rewrite Hplace. unfold moveTrivias_place.
    fold L T node. rewrite (moveTrivias_held L T Hheld).
    rewrite Htyp, Hnone. reflexivity.
  - apply moveTrivias_collect_no_arrays.
  - apply moveTrivias_collect_no_arrays.
  - intros k Hk H1 H2. apply moveTrivias_collect_lookup; assumption.
  - intros Hplain. subst L T node s.
    rewrite (moveTrivias_collect_plain _ obj Hplain) in *.
    unfold moveTrivias_cut in *.
    destruct (fieldArray obj "LeadingTrivia") as [l ok1] eqn:E1.
    destruct (fieldArray obj "TrailingTrivia") as [t ok2] eqn:E2.
    destruct (ok1 || ok2) eqn:Hok; [repeat split|].
    exfalso. apply orb_false_iff in Hok as [-> ->].
    unfold fieldArray in E1, E2. simpl in Hheld.
    destruct (obj !! "LeadingTrivia") as [[| | | | |?|]|];
      destruct (obj !! "TrailingTrivia") as [[| | | | |?|]|];
      inversion E1; inversion E2; subst; destruct Hheld; congruence.
Qed.

Lemma opMoveTrivias_Check_places_witness :
  Check (opMoveTrivias listOrder (opVar "group")) (Obj sampleBlock) ∅ =
  Check (opVar "group")
    (Obj (<["Statements" :=
              Arr ([Obj (typed "CommentTrivia")] ++
                   [Obj (typed "ReturnStatement")] ++
                   [Obj (typed "EndOfLineTrivia")])]>
            (tv_obj (moveTrivias_collect (listOrder sampleBlock) sampleBlock)))) ∅.
Proof.
  refine (proj1 (proj1 (opMoveTrivias_Check_places listOrder (opVar "group")
                          sampleBlock ∅ _) "Statements"
                   [Obj (typed "ReturnStatement")] _ _)).
  - left. vm_compute. discriminate.
  - vm_compute. reflexivity.
  - vm_compute. reflexivity.
Defined.

Example opMoveTrivias_scenario2 :
  Check (opMoveTrivias listOrder (opVar "group")) (Obj sampleBlock) ∅ =
  Ok (true,
      {[ "group" :=
           Obj (<["Statements" := Arr [Obj (typed "CommentTrivia");
                                       Obj (typed "ReturnStatement");
                                       Obj (typed "EndOfLineTrivia")]]>
                  (typed "Block")) ]}).
Proof. vm_compute. reflexivity. Qed.

(** A node without a designated field is wrapped. *)
Example opMoveTrivias_wraps :
  Check (opMoveTrivias listOrder (opVar "group"))
    (Obj (<["LeadingTrivia" := Arr [Obj (typed "CommentTrivia")]]>
            (<["TrailingTrivia" := Arr []]> (typed "IdentifierName")))) ∅ =
  Ok (true,
      {[ "group" :=
           Obj (<["Nodes" := Arr [Obj (typed "CommentTrivia");
                                  Obj (typed "IdentifierName")]]> emptyGroup) ]}).
Proof. vm_compute. reflexivity. Qed.

(** A wrapper left in a token field by an earlier visit is unwrapped: the
    token takes its place and the trivia around it join the held lists. *)
Example opMoveTrivias_unwraps_token :
  Check (opMoveTrivias listOrder (opVar "group"))
    (Obj (<["IfKeyword" :=
              Obj (<["Nodes" := Arr [Obj (typed "CommentTrivia");
                                     Obj (typed "IfKeyword");
                                     Obj (typed "WhitespaceTrivia")]]>
                     emptyGroup)]>
            (typed "IfStatement"))) ∅ =
  Ok (true,
      {[ "group" :=
           Obj (<["Nodes" :=
                    Arr [Obj (typed "CommentTrivia");
                         Obj (<["IfKeyword" := Obj (typed "IfKeyword")]>
                                (typed "IfStatement"));
                         Obj (typed "WhitespaceTrivia")]]> emptyGroup) ]}).
Proof. vm_compute. reflexivity. Qed.

(** ** opMergeGroups *)

Lemma firstWithType_eqb_find (T : string) (arr : list Node) :
  firstWithType arr (fun typ => String.eqb typ T) =
  fst <$> list_find (fun x => TypeOf x = T) arr.
Proof.
  rewrite firstWithType_find.
  induction arr as [|x tl IH]; simpl; [reflexivity|].
  destruct (String.eqb_spec (TypeOf x) T) as [E|E].
  - rewrite decide_True by reflexivity. rewrite decide_True by exact E.
    reflexivity.
  - rewrite decide_False by discriminate. rewrite decide_False by exact E.
    destruct (list_find (fun x => (TypeOf x =? T)%string = true) tl) as [[j y]|];
      destruct (list_find (fun x => TypeOf x = T) tl) as [[j' y']|];
      simpl in *; congruence.
Qed.

Lemma holdsGroup_find (arr2 : list Node) :
  holdsGroup (Arr arr2) =
  match list_find (fun x => TypeOf x = typeGroup) arr2 with
  | Some _ => true
  | None => false
  end.
Proof.
  simpl. destruct (list_find _ arr2) as [[ind g]|] eqn:E.
  - apply bool_decide_eq_true. apply list_find_Some in E as (Hind & Hg & _).
    apply Exists_exists. exists g. split; [|exact Hg].
    eapply list_elem_of_lookup_2. exact Hind.
  - apply bool_decide_eq_false. apply list_find_None in E.
    intros H. apply Exists_exists in H as (x & Hx & HT).
    rewrite Forall_forall in E. exact (E x Hx HT).
Qed.

Lemma spliceSlot_other (v : Node) : holdsGroup v = false -> spliceSlot v = v.
Proof.
  destruct v as [| | | | |arr2|]; try reflexivity.
  rewrite holdsGroup_find. unfold spliceSlot.
  destruct (list_find _ arr2) as [[ind g]|]; [discriminate|reflexivity].
Qed.

Lemma checkFuncGroup_loop_spec (todo done : list Node) (modified : bool) :
  forallb slotSound todo = true ->
  checkFuncGroup_loop done todo modified =
  Ok (done ++ (spliceSlot <$> filter (fun v => isNil v = false) todo),
      modified || existsb (fun v => isNil v || holdsGroup v) todo).
Proof.
  revert done modified. induction todo as [|v tl IH]; intros done modified Hs.
  - simpl. rewrite app_nil_r, orb_false_r. reflexivity.
  - simpl in Hs. apply andb_true_iff in Hs as [Hv Htl].
    cbn [checkFuncGroup_loop existsb].
    destruct (isNil v) eqn:Hnil.
    + rewrite IH by exact Htl.
      rewrite filter_cons_False by (rewrite Hnil; discriminate).
      simpl. rewrite orb_true_r. reflexivity.
    + rewrite filter_cons_True by exact Hnil. rewrite fmap_cons.
      assert (Hkeep : holdsGroup v = false ->
                checkFuncGroup_loop (done ++ [v]) tl modified =
                Ok (done ++ spliceSlot v :: (spliceSlot <$> filter (fun v => isNil v = false) tl),
                    modified || (false || holdsGroup v ||
                       existsb (fun v => isNil v || holdsGroup v) tl))).
      { intros Hh. rewrite IH by exact Htl. rewrite Hh, spliceSlot_other by exact Hh.
        rewrite <- app_assoc. reflexivity. }
      destruct v as [| | | | |arr2|]; try (apply Hkeep; reflexivity).
      rewrite firstWithType_eqb_find.
      pose proof (holdsGroup_find arr2) as Hh.
      unfold slotSound in Hv. unfold spliceSlot.
      destruct (list_find (fun x => TypeOf x = typeGroup) arr2) as [[ind g]|] eqn:E.
      * cbn [fmap option_fmap option_map fst].
        destruct g as [| | | | | |group]; try discriminate Hv.
        apply list_find_Some in E as (Hind & _ & _). rewrite Hind.
        unfold fieldArray.
        destruct (group !! "Nodes") as [[| | | | |arr3|]|]; try discriminate Hv.
        cbn [negb]. rewrite IH by exact Htl. rewrite Hh.
        rewrite <- app_assoc. simpl. rewrite orb_true_r. reflexivity.
      * cbn [fmap option_fmap option_map]. rewrite (Hkeep Hh).
        unfold spliceSlot. rewrite E. reflexivity.
Qed.

Lemma checkFuncGroup_loop_noop (todo done : list Node) (modified : bool) :
  forallb (fun v => negb (isNil v) && negb (holdsGroup v)) todo = true ->
  checkFuncGroup_loop done todo modified = Ok (done ++ todo, modified).
Proof.
  revert done. induction todo as [|v tl IH]; intros done Hs.
  - simpl. rewrite app_nil_r. reflexivity.
  - simpl in Hs. apply andb_true_iff in Hs as [Hv Htl].
    apply andb_true_iff in Hv as [Hnil Hh].
    apply negb_true_iff in Hnil. apply negb_true_iff in Hh.
    cbn [checkFuncGroup_loop]. rewrite Hnil.
    assert (Hkeep : checkFuncGroup_loop (done ++ [v]) tl modified =
                    Ok (done ++ v :: tl, modified)).
    { rewrite IH by exact Htl. rewrite <- app_assoc. reflexivity. }
    destruct v as [| | | | |arr2|]; try exact Hkeep.
    rewrite firstWithType_eqb_find. rewrite holdsGroup_find in Hh.
    destruct (list_find _ arr2) as [[ind g]|]; [discriminate Hh|exact Hkeep].
Qed.

Lemma opMergeGroups_Check_Group {State : Type} (sub : Op State) (group : Object) :
  TypeOf (Obj group) = typeGroup ->
  Check (opMergeGroups sub) (Obj group) = checkGroup sub group.
Proof.
  intros H. cbn [Check opMergeGroups]. unfold opMergeGroups_Check.
  rewrite H. reflexivity.
Qed.

Lemma opMergeGroups_Check_FuncGroup {State : Type} (sub : Op State) (fgroup : Object) :
  TypeOf (Obj fgroup) = typeFuncGroup ->
  Check (opMergeGroups sub) (Obj fgroup) = checkFuncGroup sub fgroup.
Proof.
  intros H. cbn [Check opMergeGroups]. unfold opMergeGroups_Check.
  rewrite H. reflexivity.
Qed.

(** C5. Merging a Group into the FunctionGroup it holds.  For a Group whose
    "Nodes" is pre ++ [fg] ++ post with [fg] its first FunctionGroup element,
    [opMergeGroups.Check] hands on [fg] with its "Nodes" replaced by
    pre ++ (Nodes of fg) ++ post: the Group is gone, the result has the
    FunctionGroup type and every other field of [fg].  A Group whose "Nodes"
    holds no FunctionGroup is reported as no-match. *)
Theorem opMergeGroups_Check_merges {State : Type} (sub : Op State)
    (group : Object) (arr : list Node) (st : State) :
  TypeOf (Obj group) = typeGroup ->
  group !! "Nodes" = Some (Arr arr) ->
  (forall pre fg post inner,
      arr = pre ++ Obj fg :: post ->
      Forall (fun x => TypeOf x <> typeFuncGroup) pre ->
      TypeOf (Obj fg) = typeFuncGroup ->
      fg !! "Nodes" = Some (Arr inner) ->
      let merged := <["Nodes" := Arr (pre ++ inner ++ post)]> fg in
      Check (opMergeGroups sub) (Obj group) st = Check sub (Obj merged) st /\
      TypeOf (Obj merged) = typeFuncGroup /\
      forall k, k <> "Nodes" -> merged !! k = fg !! k)
  /\ (Forall (fun x => TypeOf x <> typeFuncGroup) arr ->
      Check (opMergeGroups sub) (Obj group) st = Ok (false, st)).
Proof.
  intros Htyp Hnodes.
  rewrite (opMergeGroups_Check_Group sub group Htyp).
  unfold checkGroup, fieldArray. rewrite Hnodes. cbn [negb].
  split.
  - intros pre fg post inner -> Hpre Hfg Hinner.
    split; [|split].
    + rewrite (firstWithType_app _ pre post (Obj fg)).
      * rewrite list_lookup_middle by reflexivity.
        rewrite Hinner. cbn [negb].
        rewrite take_app_length.
        rewrite drop_app_ge by lia.
        replace (S (length pre) - length pre) with 1 by lia. reflexivity.
      * eapply Forall_impl; [exact Hpre|]. cbn beta. intros x Hx.
        destruct (String.eqb_spec (TypeOf x) typeFuncGroup); [contradiction|reflexivity].
      * rewrite Hfg. reflexivity.
    + simpl. rewrite lookup_insert_ne by discriminate. exact Hfg.
    + intros k Hk. rewrite lookup_insert_ne by congruence.
      reflexivity.
  - intros Hnone. rewrite firstWithType_none; [reflexivity|].
    eapply Forall_impl; [exact Hnone|]. cbn beta. intros x Hx.
    destruct (String.eqb_spec (TypeOf x) typeFuncGroup); [contradiction|reflexivity].
Qed.

Lemma opMergeGroups_Check_merges_witness :
  Check (opMergeGroups (opVar "group")) (Obj sampleGroup) ∅ =
  Check (opVar "group")
    (Obj (<["Nodes" := Arr ([Obj (typed "CommentTrivia")] ++
                            [Null; Obj (typed "uast:Alias")] ++
                            [Obj (typed "EndOfLineTrivia")])]> sampleFuncGroup)) ∅.
Proof.
  refine (proj1 (proj1 (opMergeGroups_Check_merges (opVar "group") sampleGroup
      [Obj (typed "CommentTrivia"); Obj sampleFuncGroup; Obj (typed "EndOfLineTrivia")]
      ∅ _ _)
      [Obj (typed "CommentTrivia")] sampleFuncGroup [Obj (typed "EndOfLineTrivia")]
      [Null; Obj (typed "uast:Alias")] _ _ _ _)).
  - vm_compute. reflexivity.
  - vm_compute. reflexivity.
  - reflexivity.
  - constructor; [vm_compute; discriminate|constructor].
  - vm_compute. reflexivity.
  - vm_compute. reflexivity.
Defined.

(** C6. Compaction of a FunctionGroup.  When every Group found first in a
    slot has an array under "Nodes", [opMergeGroups.Check] hands on the
    FunctionGroup with its "Nodes" replaced by the surviving entries, in
    their order: the null entries are gone, and each array entry that holds
    a Group has its first Group replaced in place by the contents of that
    Group's "Nodes"; all other entries are as they were.  If there is no null
    entry and no slot with a Group, the result is no-match. *)
Theorem opMergeGroups_Check_compacts {State : Type} (sub : Op State)
    (fgroup : Object) (arr : list Node) (st : State) :
  TypeOf (Obj fgroup) = typeFuncGroup ->
  fgroup !! "Nodes" = Some (Arr arr) ->
  forallb slotSound arr = true ->
  Check (opMergeGroups sub) (Obj fgroup) st =
    (if existsb (fun v => isNil v || holdsGroup v) arr then
       Check sub
         (Obj (<["Nodes" :=
                   Arr (spliceSlot <$> filter (fun v => isNil v = false) arr)]>
                 fgroup)) st
     else Ok (false, st))
  /\ forall v, holdsGroup v = false -> spliceSlot v = v.
Proof.
  intros Htyp Hnodes Hsound. split; [|apply spliceSlot_other].
  rewrite (opMergeGroups_Check_FuncGroup sub fgroup Htyp).
  unfold checkFuncGroup, fieldArray. rewrite Hnodes. cbn [negb].
  rewrite (checkFuncGroup_loop_spec arr [] false Hsound). simpl.
  destruct (existsb _ arr); reflexivity.
Qed.

Lemma opMergeGroups_Check_compacts_witness :
  Check (opMergeGroups (opVar "group"))
    (Obj (<["Nodes" := Arr sampleSlots]> (typed typeFuncGroup))) ∅ =
  Ok (true,
      {[ "group" :=
           Obj (<["Nodes" :=
                    Arr [Arr [Obj (typed "PublicKeyword");
                              Obj (typed "CommentTrivia");
                              Obj (typed "StaticKeyword");
                              Obj (typed "AsyncKeyword")];
                         Obj (typed "uast:Alias")]]>
                  (typed typeFuncGroup)) ]}).
Proof.
  etransitivity.
  - refine (proj1 (opMergeGroups_Check_compacts (opVar "group")
              (<["Nodes" := Arr sampleSlots]> (typed typeFuncGroup)) sampleSlots ∅
              _ _ _)); vm_compute; reflexivity.
  - vm_compute. reflexivity.
Defined.

(** ** No-match on settled nodes *)

Lemma opMoveTrivias_Check_settled {State : Type}
    (rangeOrder : Object -> list string) (sub : Op State)
    (obj : Object) (st : State) :
  obj !! "LeadingTrivia" = None ->
  obj !! "TrailingTrivia" = None ->
  (forall key v, obj !! key = Some v -> isTokenKey key = true ->
                 TypeOf v <> typeGroup) ->
  Check (opMoveTrivias rangeOrder sub) (Obj obj) st = Ok (false, st).
Proof.
  intros HL HT Hfields. cbn [Check opMoveTrivias]. unfold opMoveTrivias_Check.
  rewrite (moveTrivias_collect_plain _ obj Hfields).
  unfold moveTrivias_cut, fieldArray. rewrite HL, HT. reflexivity.
Qed.

Lemma opMergeGroups_Check_settled {State : Type} (sub : Op State)
    (n : Node) (st : State) :
  needsNoMerge n = true ->
  Check (opMergeGroups sub) n st = Ok (false, st).
Proof.
  destruct n as [| | | | | |group]; try reflexivity.
  unfold needsNoMerge. cbn [Check opMergeGroups]. unfold opMergeGroups_Check.
  destruct (String.eqb (TypeOf (Obj group)) typeGroup).
  - unfold checkGroup, fieldArray.
    destruct (group !! "Nodes") as [[| | | | |arr|]|]; try discriminate.
    intros H. apply bool_decide_eq_true in H. cbn [negb].
    rewrite firstWithType_none; [reflexivity|].
    eapply Forall_impl; [exact H|]. cbn beta. intros x Hx.
    destruct (String.eqb_spec (TypeOf x) typeFuncGroup); [contradiction|reflexivity].
  - destruct (String.eqb (TypeOf (Obj group)) typeFuncGroup); [|reflexivity].
    unfold checkFuncGroup, fieldArray.
    destruct (group !! "Nodes") as [[| | | | |arr|]|]; try discriminate.
    intros H. cbn [negb]. rewrite (checkFuncGroup_loop_noop arr [] false H).
    reflexivity.
Qed.

(** Nodes the Normalize operators have settled are passed through.
    [opMoveTrivias.Check] reports no-match on an Object that has neither
    side-channel field and no inspected field (token, keyword or the fixed
    extra field) holding a Group; in particular on the Group it builds
    itself.  [opMergeGroups.Check] reports no-match on every node that needs
    no merge and no compaction. *)
Theorem normalize_operators_settled {State : Type} (sub : Op State) (st : State) :
  (forall (rangeOrder : Object -> list string) (obj : Object),
      obj !! "LeadingTrivia" = None ->
      obj !! "TrailingTrivia" = None ->
      (forall key v, obj !! key = Some v -> isTokenKey key = true ->
                     TypeOf v <> typeGroup) ->
      Check (opMoveTrivias rangeOrder sub) (Obj obj) st = Ok (false, st))
  /\ (forall (rangeOrder : Object -> list string) (arr : list Node),
        Check (opMoveTrivias rangeOrder sub)
          (Obj (<["Nodes" := Arr arr]> emptyGroup)) st = Ok (false, st))
  /\ (forall n : Node,
        needsNoMerge n = true ->
        Check (opMergeGroups sub) n st = Ok (false, st)).
Proof.
  split; [|split].
  - intros rangeOrder obj. apply opMoveTrivias_Check_settled.
  - intros rangeOrder arr. apply opMoveTrivias_Check_settled.
    + reflexivity.
    + reflexivity.
    + intros key v Hv Hkey.
      apply lookup_insert_Some in Hv as [[<- _]|[_ Hv]]; [discriminate Hkey|].
      unfold emptyGroup in Hv.
      apply lookup_singleton_Some in Hv as [<- _]. discriminate Hkey.
  - intros n. apply opMergeGroups_Check_settled.
Qed.

Lemma normalize_operators_settled_witness :
  Check (opMoveTrivias listOrder (opVar "group")) (Obj settledBlock) ∅ = Ok (false, ∅)
  /\ Check (opMergeGroups (opVar "group")) settledFuncGroup ∅ = Ok (false, ∅).
Proof.
  split.
  - refine (proj1 (normalize_operators_settled (opVar "group") ∅)
              listOrder settledBlock _ _ _).
    + vm_compute. reflexivity.
    + vm_compute. reflexivity.
    + intros key v Hv Hkey. unfold settledBlock in Hv.
      apply lookup_insert_Some in Hv as [[<- _]|[_ Hv]]; [discriminate Hkey|].
      apply lookup_insert_Some in Hv as [[_ <-]|[_ Hv]]; [vm_compute; discriminate|].
      unfold typed in Hv.
      apply lookup_singleton_Some in Hv as [<- _]. discriminate Hkey.
  - refine (proj2 (proj2 (normalize_operators_settled (opVar "group") ∅))
              settledFuncGroup _).
    vm_compute. reflexivity.
Defined.

(** ** Invariant violations *)

(** C9. Invariant violations are errors, not mismatches.
    [opArrToChain.Construct] fails whenever a modifier of the list is an
    Object that already carries "Type".  [opMoveTrivias.Check] fails when it
    holds trivia for a node whose type has a designated field and that
    field is missing or not an array.  [opMergeGroups.Check] fails on a
    Group and on a FunctionGroup whose "Nodes" is not an array. *)
Theorem invariant_violations_fail {State : Type} (st : State) :
  (forall (opMods opType : Op State) (n : Node) (mods : list Node) (st1 : State),
      Construct opMods Null st = Ok (Arr mods, st1) ->
      Exists (fun nd => exists m : Object, nd = Obj m /\ is_Some (m !! "Type")) mods ->
      exists e, Construct (opArrToChain opMods opType) n st = Err e)
  /\ (forall (rangeOrder : Object -> list string) (sub : Op State)
             (obj : Object) (field : string),
        let s := moveTrivias_collect (rangeOrder obj) obj in
        tv_leading s <> [] \/ tv_trailing s <> [] ->
        triviaField !! TypeOf (Obj obj) = Some field ->
        (forall old, obj !! field <> Some (Arr old)) ->
        Check (opMoveTrivias rangeOrder sub) (Obj obj) st =
        Err (ErrFieldNotArray field))
  /\ (forall (sub : Op State) (group : Object),
        TypeOf (Obj group) = typeGroup ->
        (forall arr, group !! "Nodes" <> Some (Arr arr)) ->
        Check (opMergeGroups sub) (Obj group) st =
        Err (ErrorString "expected an array in Group.Nodes"))
  /\ (forall (sub : Op State) (fgroup : Object),
        TypeOf (Obj fgroup) = typeFuncGroup ->
        (forall arr, fgroup !! "Nodes" <> Some (Arr arr)) ->
        Check (opMergeGroups sub) (Obj fgroup) st =
        Err (ErrorString "expected an array in FuncGroup.Nodes")).
Proof.
  split; [|split; [|split]].
  - intros opMods opType n mods st1 Hmods Howned.
    cbn [Construct opArrToChain]. unfold opArrToChain_Construct, bind.
    rewrite Hmods.
    destruct (Construct opType n st1) as [[typ st2]|e]; [|eauto].
    destruct (opArrToChain_wrap_owned mods typ Howned) as [e He].
    rewrite He. unfold fail. eauto.
  - intros rangeOrder sub obj field s Hheld Hfield Hnot.
    cbn [Check opMoveTrivias]. unfold opMoveTrivias_Check, moveTrivias_place.
    fold s. rewrite (moveTrivias_held _ _ Hheld).
    unfold s at 1. rewrite moveTrivias_collect_TypeOf, Hfield.
    unfold fieldArray, s.
    rewrite (moveTrivias_collect_field _ _ _ _ Hfield).
    destruct (obj !! field) as [[| | | | |old|]|] eqn:E; try reflexivity.
    exfalso. exact (Hnot old eq_refl).
  - intros sub group Htyp Hnot.
    rewrite (opMergeGroups_Check_Group sub group Htyp).
    unfold checkGroup, fieldArray.
    destruct (group !! "Nodes") as [[| | | | |arr|]|] eqn:E; try reflexivity.
    exfalso. exact (Hnot arr eq_refl).
  - intros sub fgroup Htyp Hnot.
    rewrite (opMergeGroups_Check_FuncGroup sub fgroup Htyp).
    unfold checkFuncGroup, fieldArray.
    destruct (fgroup !! "Nodes") as [[| | | | |arr|]|] eqn:E; try reflexivity.
    exfalso. exact (Hnot arr eq_refl).
Qed.

Lemma invariant_violations_fail_witness :
  (exists e, Construct paramChain Null (chainVars [Obj ownedMod] typInt) = Err e)
  /\ Check (opMoveTrivias listOrder (opVar "group")) (Obj brokenBlock) ∅ =
       Err (ErrFieldNotArray "Statements")
  /\ Check (opMergeGroups (opVar "group")) (Obj emptyGroup) ∅ =
       Err (ErrorString "expected an array in Group.Nodes")
  /\ Check (opMergeGroups (opVar "group")) (Obj (typed typeFuncGroup)) ∅ =
       Err (ErrorString "expected an array in FuncGroup.Nodes").
Proof.
  pose proof (invariant_violations_fail (chainVars [Obj ownedMod] typInt)) as HA.
  pose proof (invariant_violations_fail (∅ : Vars)) as HB.
  split; [|split; [|split]].
  - refine (proj1 HA (opVar "rest") (opVar "type") Null [Obj ownedMod] _ _ _).
    + vm_compute. reflexivity.
    + constructor. exists ownedMod. split; [reflexivity|].
      exists typInt. vm_compute. reflexivity.
  - refine (proj1 (proj2 HB) listOrder (opVar "group") brokenBlock "Statements" _ _ _).
    + left. vm_compute. discriminate.
    + vm_compute. reflexivity.
    + intros old H. vm_compute in H. discriminate H.
  - refine (proj1 (proj2 (proj2 HB)) (opVar "group") emptyGroup _ _).
    + vm_compute. reflexivity.
    + intros arr H. vm_compute in H. discriminate H.
  - refine (proj2 (proj2 (proj2 HB)) (opVar "group") (typed typeFuncGroup) _ _).
    + vm_compute. reflexivity.
    + intros arr H. vm_compute in H. discriminate H.
Defined.

(** * Further properties of the operators *)

(** ** firstWithType *)

(** X1. [firstWithType] returns the index of the leftmost element whose type
    passes the filter, an index inside the array, and -1 (here [None])
    exactly when no element passes. *)
Theorem firstWithType_leftmost (fnc : string -> bool) (arr : list Node) :
  (forall i,
      firstWithType arr fnc = Some i <->
      exists x, arr !! i = Some x /\ fnc (TypeOf x) = true /\
                forall j y, arr !! j = Some y -> j < i -> fnc (TypeOf y) = false)
  /\ (firstWithType arr fnc = None <->
      Forall (fun y => fnc (TypeOf y) = false) arr).
Proof.
  rewrite firstWithType_find. split.
  - intros i. split.
    + destruct (list_find _ arr) as [[j x]|] eqn:E; [|discriminate].
      intros [= <-]. apply list_find_Some in E as (Hx & Hf & Hlt).
      exists x. split; [exact Hx|]. split; [exact Hf|].
      intros k y Hy Hk. apply not_true_is_false. exact (Hlt k y Hy Hk).
    + intros (x & Hx & Hf & Hlt).
      assert (E : list_find (fun x => fnc (TypeOf x) = true) arr = Some (i, x)).
      { apply list_find_Some. split; [exact Hx|]. split; [exact Hf|].
        intros j y Hy Hj. rewrite (Hlt j y Hy Hj). discriminate. }
      rewrite E. reflexivity.
  - split.
    + destruct (list_find _ arr) as [[j x]|] eqn:E; [discriminate|].
      intros _. apply list_find_None in E.
      eapply Forall_impl; [exact E|]. cbn beta. intros y Hy.
      apply not_true_is_false. exact Hy.
    + intros H.
      assert (E : list_find (fun x => fnc (TypeOf x) = true) arr = None).
      { apply list_find_None. eapply Forall_impl; [exact H|].
        cbn beta. intros y ->. discriminate. }
      rewrite E. reflexivity.
Qed.

(** ** opArrHasKeyword *)

Lemma andThen_ext {State : Type} (c k k' : M State bool) (st : State) :
  (forall st1, k st1 = k' st1) -> andThen c k st = andThen c k' st.
Proof.
  intros H. unfold andThen, bind.
  destruct (c st) as [[[|] st1]|e]; [apply H|reflexivity|reflexivity].
Qed.

Lemma opArrHasKeyword_Check_Arr {State : Type} (K : string)
    (opHas opRest : Op State) (arr : list Node) (st : State) :
  Check (opArrHasKeyword K opHas opRest) (Arr arr) st =
  andThen (Check opHas (Bool (extractKeyword K arr).1))
    (Check opRest (Arr (extractKeyword K arr).2)) st.
Proof.
  cbn [Check opArrHasKeyword]. unfold opArrHasKeyword_Check. simpl.
  pose proof (opArrHasKeyword_scan_find K opHas opRest (Arr arr) [] arr) as H.
  simpl in H. rewrite H. unfold extractKeyword.
  destruct (list_find _ arr) as [[j y]|]; reflexivity.
Qed.

Lemma extractKeyword_cons (K : string) (x : Node) (tl : list Node) :
  extractKeyword K (x :: tl) =
  if isKeywordNode K x then (true, tl)
  else ((extractKeyword K tl).1, x :: (extractKeyword K tl).2).
Proof.
  unfold extractKeyword. simpl list_find.
  destruct (isKeywordNode K x) eqn:Hx.
  - rewrite decide_True by reflexivity. reflexivity.
  - rewrite decide_False by discriminate.
    destruct (list_find _ tl) as [[j y]|]; reflexivity.
Qed.

Lemma isKeywordNode_distinct (K1 K2 : string) (x : Node) :
  K1 <> K2 -> isKeywordNode K1 x = true -> isKeywordNode K2 x = false.
Proof.
  intros Hne. unfold isKeywordNode.
  destruct x as [| | | | | |obj]; try discriminate.
  destruct (obj !! KeyType) as [[| | | |typ| |]|]; try discriminate.
  intros H1. apply String.eqb_eq in H1. subst typ.
  apply String.eqb_neq. exact Hne.
Qed.

(** Extraction of two different keywords: neither disturbs the other. *)
Lemma extractKeyword_commute (K1 K2 : string) (arr : list Node) :
  K1 <> K2 ->
  (extractKeyword K2 (extractKeyword K1 arr).2).1 = (extractKeyword K2 arr).1 /\
  (extractKeyword K2 (extractKeyword K1 arr).2).2 =
  (extractKeyword K1 (extractKeyword K2 arr).2).2.
Proof.
  intros Hne. induction arr as [|x tl [IH1 IH2]]; [split; reflexivity|].
  rewrite (extractKeyword_cons K1 x tl), (extractKeyword_cons K2 x tl).
  destruct (isKeywordNode K1 x) eqn:H1; destruct (isKeywordNode K2 x) eqn:H2.
  - rewrite (isKeywordNode_distinct K1 K2 x Hne H1) in H2. discriminate H2.
  - cbn [fst snd]. rewrite (extractKeyword_cons K1 x), H1. split; reflexivity.
  - cbn [fst snd]. rewrite (extractKeyword_cons K2 x), H2. split; reflexivity.
  - cbn [fst snd]. rewrite (extractKeyword_cons K2 x), H2.
    rewrite (extractKeyword_cons K1 x), H1. cbn [fst snd].
    rewrite IH1, IH2. split; reflexivity.
Qed.

(** X2. Two keyword extractors nested as in the Parameter mapping, for two
    different keywords: on an Array the outer flag, the inner flag and the
    remainder are checked in that order; each flag tells whether its keyword
    occurs in the input array, and the remainder is the array without the
    leftmost element of each keyword.  The remainder does not depend on
    which extractor is the outer one. *)
Theorem opArrHasKeyword_nested {State : Type} (K1 K2 : string)
    (op1 op2 opRest : Op State) (arr : list Node) (st : State) :
  K1 <> K2 ->
  let rest := (extractKeyword K2 (extractKeyword K1 arr).2).2 in
  Check (opArrHasKeyword K1 op1 (opArrHasKeyword K2 op2 opRest)) (Arr arr) st =
    andThen (Check op1 (Bool (extractKeyword K1 arr).1))
      (andThen (Check op2 (Bool (extractKeyword K2 arr).1))
         (Check opRest (Arr rest))) st
  /\ rest = (extractKeyword K1 (extractKeyword K2 arr).2).2.
Proof.
  intros Hne rest. destruct (extractKeyword_commute K1 K2 arr Hne) as [Hf Hr].
  split; [|exact Hr].
  rewrite opArrHasKeyword_Check_Arr. apply andThen_ext. intros st1.
  rewrite opArrHasKeyword_Check_Arr, Hf. reflexivity.
Qed.

Lemma opArrHasKeyword_nested_witness :
  Check (opArrHasKeyword "ParamsKeyword" (opVar "variadic")
           (opArrHasKeyword "ThisKeyword" (opVar "this") (opVar "rest")))
    (Arr [Obj modRef; Obj (typed "ThisKeyword")]) ∅ =
  Ok (true, <["rest" := Arr [Obj modRef]]>
              (<["this" := Bool true]> (<["variadic" := Bool false]> ∅))).
Proof.
  etransitivity.
  - refine (proj1 (opArrHasKeyword_nested "ParamsKeyword" "ThisKeyword"
              (opVar "variadic") (opVar "this") (opVar "rest")
              [Obj modRef; Obj (typed "ThisKeyword")] ∅ _)).
    discriminate.
  - vm_compute. reflexivity.
Defined.

(** X3. [opArrHasKeyword.Construct] builds what the remainder sub-pattern
    builds, whatever the flag says: the keyword is not put back.  A flag
    that is not a boolean is an unexpected-type error. *)
Theorem opArrHasKeyword_Construct_ignores_flag {State : Type} (K : string)
    (opHas opRest : Op State) (n v : Node) (st st1 : State) :
  Construct opHas Null st = Ok (v, st1) ->
  (forall has, v = Bool has ->
     Construct (opArrHasKeyword K opHas opRest) n st = Construct opRest n st1)
  /\ ((forall has, v <> Bool has) ->
     Construct (opArrHasKeyword K opHas opRest) n st =
     Err (ErrUnexpectedType (Bool false) v)).
Proof.
  intros Hv. cbn [Construct opArrHasKeyword].
  unfold opArrHasKeyword_Construct, bind. rewrite Hv. split.
  - intros has ->. unfold ret.
    destruct (Construct opRest n st1) as [[n' st2]|e]; [|reflexivity].
    destruct has; reflexivity.
  - intros Hnot. destruct v; try reflexivity. exfalso. exact (Hnot b eq_refl).
Qed.

Lemma opArrHasKeyword_Construct_ignores_flag_witness :
  Construct (opArrHasKeyword "ParamsKeyword" (opVar "variadic") (opVar "rest")) Null
    (<["variadic" := Bool true]> (<["rest" := Arr [Obj modRef]]> ∅)) =
  Construct (opVar "rest") Null
    (<["variadic" := Bool true]> (<["rest" := Arr [Obj modRef]]> ∅)).
Proof.
  refine (proj1 (opArrHasKeyword_Construct_ignores_flag "ParamsKeyword"
            (opVar "variadic") (opVar "rest") Null (Bool true) _ _ _) true eq_refl).
  vm_compute. reflexivity.
Defined.

(** ** dropNils *)

Lemma dropNils_loop_clean (arr : list Node) :
  Forall (fun e => isNil e = false) arr ->
  filter (fun e => isNil e = false) arr = arr.
Proof.
  induction 1 as [|e tl He _ IH]; [reflexivity|].
  rewrite filter_cons_True by exact He. rewrite IH. reflexivity.
Qed.

Lemma dropNils_loop_no_nil (arr : list Node) :
  Forall (fun e => isNil e = false) (filter (fun e => isNil e = false) arr).
Proof.
  apply Forall_forall. intros e He.
  apply list_elem_of_filter in He as [He _]. exact He.
Qed.

Lemma sublist_same_length (l1 l2 : list Node) :
  sublist l1 l2 -> length l1 = length l2 -> l1 = l2.
Proof.
  induction 1 as [|x l1 l2 _ IH|x l1 l2 Hsub _]; intros Hlen.
  - reflexivity.
  - f_equal. apply IH. simpl in Hlen. lia.
  - apply sublist_length in Hsub. simpl in Hlen. lia.
Qed.

Lemma sublist_clean_filter (l arr : list Node) :
  sublist l arr -> Forall (fun e => isNil e = false) l ->
  sublist l (filter (fun e => isNil e = false) arr).
Proof.
  induction 1 as [|x l1 l2 _ IH|x l1 l2 _ IH]; intros Hclean.
  - constructor.
  - apply Forall_cons in Hclean as [Hx Hclean].
    rewrite filter_cons_True by exact Hx. constructor. apply IH. exact Hclean.
  - destruct (isNil x) eqn:Hx.
    + rewrite filter_cons_False by (rewrite Hx; discriminate). apply IH. exact Hclean.
    + rewrite filter_cons_True by exact Hx. constructor. apply IH. exact Hclean.
Qed.

(** X4. The array [dropNils.Check] hands to its sub-pattern is the input
    without its nil entries and nothing else: it holds no nil, it is the
    input with entries removed and none reordered, the entries removed are
    as many as the nil entries of the input (so every entry that is not nil
    is kept, as often as it occurs), and it is the input itself when the
    input holds no nil. *)
Theorem dropNils_Check_compacts {State : Type} (op : Op State)
    (arr : list Node) (st : State) :
  let out := filter (fun e => isNil e = false) arr in
  Check (dropNils op) (Arr arr) st = Check op (Arr out) st
  /\ Forall (fun e => isNil e = false) out
  /\ sublist out arr
  /\ length arr = length out + length (filter (fun e => isNil e = true) arr)
  /\ (forall out', sublist out' arr -> Forall (fun e => isNil e = false) out' ->
                   length out' = length out -> out' = out)
  /\ (Forall (fun e => isNil e = false) arr -> out = arr).
Proof.
  intros out. subst out.
  split; [|split; [|split; [|split; [|split]]]].
  - cbn [Check dropNils]. unfold dropNils_Check. simpl.
    rewrite dropNils_loop_filter. reflexivity.
  - apply dropNils_loop_no_nil.
  - apply sublist_filter.
  - induction arr as [|e tl IH]; [reflexivity|].
    destruct (isNil e) eqn:He.
    + rewrite filter_cons_False by (rewrite He; discriminate).
      rewrite filter_cons_True by exact He. simpl. lia.
    + rewrite filter_cons_True by exact He.
      rewrite filter_cons_False by (rewrite He; discriminate). simpl. lia.
  - intros out' Hsub Hclean Hlen.
    apply sublist_same_length; [|exact Hlen].
    apply sublist_clean_filter; assumption.
  - apply dropNils_loop_clean.
Qed.

(** X5. [dropNils] around [dropNils] behaves as one [dropNils], on every
    kind of input. *)
Theorem dropNils_Check_idempotent {State : Type} (op : Op State)
    (n : Node) (st : State) :
  Check (dropNils (dropNils op)) n st = Check (dropNils op) n st.
Proof.
  destruct n; try reflexivity.
  cbn [Check dropNils]. unfold dropNils_Check at 1. simpl.
  rewrite dropNils_loop_filter. simpl.
  unfold dropNils_Check. simpl. rewrite !dropNils_loop_filter. simpl.
  rewrite (dropNils_loop_clean _ (dropNils_loop_no_nil elems)). reflexivity.
Qed.

(** ** opArrToChain *)

(** X6. [opArrToChain.Construct] on any number of modifier Objects, none of
    which carries "Type": the result is the terminal wrapped once per
    modifier in list order, so the empty list gives the terminal itself and
    the last modifier is always the outermost node; every modifier keeps its
    own fields. *)
Theorem opArrToChain_Construct_chain {State : Type} (opMods opType : Op State)
    (n t : Node) (mods : list Object) (st st1 st2 : State) :
  Construct opMods Null st = Ok (Arr (Obj <$> mods), st1) ->
  Construct opType n st1 = Ok (t, st2) ->
  Forall (fun m : Object => m !! "Type" = None) mods ->
  Construct (opArrToChain opMods opType) n st = Ok (chainOf mods t, st2)
  /\ chainOf [] t = t
  /\ (forall (ms : list Object) (m : Object),
        chainOf (ms ++ [m]) t = Obj (<["Type" := chainOf ms t]> m) /\
        forall k, k <> "Type" -> <["Type" := chainOf ms t]> m !! k = m !! k).
Proof.
  intros Hmods Htyp Hfree. split; [|split; [reflexivity|]].
  - cbn [Construct opArrToChain]. unfold opArrToChain_Construct, bind.
    rewrite Hmods, Htyp, (opArrToChain_wrap_chainOf mods t Hfree). reflexivity.
  - intros ms m. split; [apply chainOf_snoc|].
    intros k Hk. apply lookup_insert_ne. congruence.
Qed.

Lemma opArrToChain_Construct_chain_witness :
  Construct paramChain Null
    (chainVars (Obj <$> [modRef; modOut; typed "InKeyword"]) typInt) =
  Ok (chainOf [modRef; modOut; typed "InKeyword"] typInt,
      chainVars (Obj <$> [modRef; modOut; typed "InKeyword"]) typInt).
Proof.
  refine (proj1 (opArrToChain_Construct_chain (opVar "rest") (opVar "type")
            Null typInt [modRef; modOut; typed "InKeyword"] _ _ _ _ _ _)).
  - vm_compute. reflexivity.
  - vm_compute. reflexivity.
  - repeat constructor.
Defined.

Lemma opArrToChain_wrap_not_object (pre : list Object) (nd : Node)
    (post : list Node) (typ : Node) :
  Forall (fun m : Object => m !! "Type" = None) pre ->
  (forall m, nd <> Obj m) ->
  opArrToChain_wrap ((Obj <$> pre) ++ nd :: post) typ =
  Err (ErrUnexpectedType (Obj ∅) nd).
Proof.
  intros Hpre Hnd. revert typ.
  induction Hpre as [|m tl Hm _ IH]; intros typ; simpl.
  - destruct nd; try reflexivity. exfalso. exact (Hnd _ eq_refl).
  - rewrite Hm. apply IH.
Qed.

(** X7. Type confusion in [opArrToChain.Construct] is an error that names
    the offending node: a modifiers value that is not an Array, and the
    first modifier that is not an Object (the modifiers before it being
    Objects without "Type"). *)
Theorem opArrToChain_Construct_unexpected_type {State : Type}
    (opMods opType : Op State) (n nd : Node) (st st1 : State) :
  Construct opMods Null st = Ok (nd, st1) ->
  ((forall mods, nd <> Arr mods) ->
   Construct (opArrToChain opMods opType) n st =
   Err (ErrUnexpectedType (Arr []) nd))
  /\ (forall (pre : list Object) (bad : Node) (post : list Node) t st2,
        nd = Arr ((Obj <$> pre) ++ bad :: post) ->
        Construct opType n st1 = Ok (t, st2) ->
        Forall (fun m : Object => m !! "Type" = None) pre ->
        (forall m, bad <> Obj m) ->
        Construct (opArrToChain opMods opType) n st =
        Err (ErrUnexpectedType (Obj ∅) bad)).
Proof.
  intros Hnd. cbn [Construct opArrToChain].
  unfold opArrToChain_Construct, bind. rewrite Hnd. split.
  - intros Hnot. destruct nd; try reflexivity. exfalso. exact (Hnot _ eq_refl).
  - intros pre bad post t st2 -> Ht Hpre Hbad. rewrite Ht.
    rewrite (opArrToChain_wrap_not_object pre bad post t Hpre Hbad). reflexivity.
Qed.

Lemma opArrToChain_Construct_unexpected_type_witness :
  Construct paramChain Null (chainVars [Obj modRef; Str "out"] typInt) =
  Err (ErrUnexpectedType (Obj ∅) (Str "out")).
Proof.
  refine (proj2 (opArrToChain_Construct_unexpected_type (opVar "rest") (opVar "type")
            Null (Arr [Obj modRef; Str "out"]) _ _ _)
            [modRef] (Str "out") [] typInt _ eq_refl _ _ _).
  - vm_compute. reflexivity.
  - vm_compute. reflexivity.
  - repeat constructor.
  - discriminate.
Defined.

(** ** opMoveTrivias *)

Lemma moveTrivias_visit_modified (src : Object) (s : Trivias) (key : string) :
  tv_modified s = true -> tv_modified (moveTrivias_visit src s key) = true.
Proof.
  intros H. unfold moveTrivias_visit.
  destruct (src !! key) as [sub|]; [|exact H].
  destruct (_ && _); [exact H|].
  destruct (negb _); [exact H|].
  destruct sub as [| | | | | |group]; try exact H.
  destruct (fieldArray group "Nodes") as [arr [|]]; simpl; [|exact H].
  destruct (firstWithType arr _); reflexivity.
Qed.

Lemma moveTrivias_fold_modified (src : Object) (keys : list string) (s : Trivias) :
  tv_modified s = true ->
  tv_modified (foldl (moveTrivias_visit src) s keys) = true.
Proof.
  revert s. induction keys as [|key tl IH]; intros s H; simpl; [exact H|].
  apply IH. apply moveTrivias_visit_modified. exact H.
Qed.

(** X8. As soon as one of "LeadingTrivia" and "TrailingTrivia" holds an
    array, the relocator removes both fields from the node, whatever the
    other one holds, and counts the node as modified. *)
Theorem moveTrivias_collect_cuts_both (keys : list string) (obj : Object) :
  (fieldArray obj "LeadingTrivia").2 || (fieldArray obj "TrailingTrivia").2 = true ->
  tv_obj (moveTrivias_collect keys obj) !! "LeadingTrivia" = None /\
  tv_obj (moveTrivias_collect keys obj) !! "TrailingTrivia" = None /\
  tv_modified (moveTrivias_collect keys obj) = true.
Proof.
  intros H. unfold moveTrivias_collect.
  rewrite !moveTrivias_fold_other by reflexivity.
  assert (Hcut : moveTrivias_cut obj =
                 mkTrivias (delete "TrailingTrivia" (delete "LeadingTrivia" obj))
                   (fieldArray obj "LeadingTrivia").1
                   (fieldArray obj "TrailingTrivia").1 true).
  { unfold moveTrivias_cut.
    destruct (fieldArray obj "LeadingTrivia") as [l ok1].
    destruct (fieldArray obj "TrailingTrivia") as [t ok2].
    simpl in H. rewrite H. reflexivity. }
  split; [|split].
  - rewrite Hcut. simpl. rewrite lookup_delete_ne by discriminate.
    apply lookup_delete_eq.
  - rewrite Hcut. simpl. apply lookup_delete_eq.
  - apply moveTrivias_fold_modified. rewrite Hcut. reflexivity.
Qed.

(** A node whose trailing field is not an array, next to a leading array. *)
Lemma moveTrivias_collect_cuts_both_witness :
  tv_obj (moveTrivias_collect (listOrder sampleBlock)
            (<["TrailingTrivia" := Str "junk"]> sampleBlock)) !! "TrailingTrivia"
  = None.
Proof.
  refine (proj1 (proj2 (moveTrivias_collect_cuts_both (listOrder sampleBlock)
            (<["TrailingTrivia" := Str "junk"]> sampleBlock) _))).
  vm_compute. reflexivity.
Defined.



Lemma moveTrivias_fold_noop_on (src : Object) (keys : list string) (s : Trivias) :
  (forall key, key ∈ keys -> forall v, src !! key = Some v ->
               isTokenKey key = true -> TypeOf v <> typeGroup) ->
  foldl (moveTrivias_visit src) s keys = s.
Proof.
  induction keys as [|key tl IH]; intros H; simpl; [reflexivity|].
  rewrite moveTrivias_visit_noop.
  - apply IH. intros k Hk. apply H. right. exact Hk.
  - apply H. left.
Qed.

(** A loop in which one key at most has something to unwrap does what the
    visit of that key does. *)
Lemma moveTrivias_fold_single (src : Object) (keys : list string) (s : Trivias)
    (key : string) :
  NoDup keys -> key ∈ keys ->
  (forall k v, k <> key -> src !! k = Some v ->
               isTokenKey k = true -> TypeOf v <> typeGroup) ->
  foldl (moveTrivias_visit src) s keys = moveTrivias_visit src s key.
Proof.
  intros Hnd Hin Hothers.
  apply list_elem_of_split in Hin as (l1 & l2 & ->).
  apply NoDup_app in Hnd as (_ & Hl1 & Hnd2).
  apply NoDup_cons in Hnd2 as [Hl2 _].
  rewrite foldl_app. simpl.
  rewrite (moveTrivias_fold_noop_on src l1).
  - apply moveTrivias_fold_noop_on. intros k Hk v. apply Hothers.
    intros ->. exact (Hl2 Hk).
  - intros k Hk v. apply Hothers. intros ->. apply (Hl1 key Hk). left.
Qed.

Lemma rangeOrder_keys (keys : list string) (obj : Object) (key : string) (v : Node) :
  keys ≡ₚ (map_to_list obj).*1 -> obj !! key = Some v ->
  NoDup keys /\ key ∈ keys.
Proof.
  intros Hperm Hv. split.
  - rewrite Hperm. apply NoDup_fst_map_to_list.
  - rewrite Hperm. apply list_elem_of_fmap. exists (key, v).
    split; [reflexivity|]. apply elem_of_map_to_list. exact Hv.
Qed.

Lemma moveTrivias_visit_group (src : Object) (s : Trivias) (key : string)
    (group : Object) (arr : list Node) :
  src !! key = Some (Obj group) -> isTokenKey key = true ->
  TypeOf (Obj group) = typeGroup -> group !! "Nodes" = Some (Arr arr) ->
  moveTrivias_visit src s key =
  match firstWithType arr (fun typ => negb (HasSuffix typ "Trivia")) with
  | None => mkTrivias (<[key := Null]> (tv_obj s)) (tv_leading s ++ arr)
              (tv_trailing s) true
  | Some ind => mkTrivias (<[key := default Null (arr !! ind)]> (tv_obj s))
                  (tv_leading s ++ take ind arr)
                  (drop (S ind) arr ++ tv_trailing s) true
  end.
Proof.
  intros Hsrc Hkey Htyp Hnodes. unfold moveTrivias_visit.
  rewrite Hsrc, isTokenKey_guard, Hkey, Htyp. cbn [negb].
  unfold fieldArray. rewrite Hnodes. reflexivity.
Qed.

Lemma moveTrivias_collect_single (keys : list string) (obj : Object)
    (key : string) (group : Object) :
  keys ≡ₚ (map_to_list obj).*1 ->
  isTokenKey key = true ->
  obj !! key = Some (Obj group) ->
  (forall k v, k <> key -> obj !! k = Some v ->
               isTokenKey k = true -> TypeOf v <> typeGroup) ->
  moveTrivias_collect keys obj =
  moveTrivias_visit (tv_obj (moveTrivias_cut obj)) (moveTrivias_cut obj) key.
Proof.
  intros Hperm Hkey Hobj Hothers.
  destruct (rangeOrder_keys keys obj key _ Hperm Hobj) as [Hnd Hin].
  unfold moveTrivias_collect. apply moveTrivias_fold_single; [exact Hnd|exact Hin|].
  intros k v Hk Hv Htok. apply (Hothers k v Hk); [|exact Htok].
  rewrite <- Hv. symmetry. apply moveTrivias_cut_token. exact Htok.
Qed.

Lemma moveTrivias_cut_absent (obj : Object) :
  obj !! "LeadingTrivia" = None -> obj !! "TrailingTrivia" = None ->
  moveTrivias_cut obj = mkTrivias obj [] [] false.
Proof.
  intros HL HT. unfold moveTrivias_cut, fieldArray. rewrite HL, HT. reflexivity.
Qed.

Lemma TypeOf_insert_token (obj : Object) (key : string) (v : Node) :
  isTokenKey key = true ->
  TypeOf (Obj (<[key := v]> obj)) = TypeOf (Obj obj).
Proof.
  intros H. simpl. rewrite lookup_insert_ne; [reflexivity|].
  intros ->. discriminate H.
Qed.

(** X10. One wrapped token field.  Let the field [key] (a token or keyword
    field, or "ReturnType") hold a Group whose "Nodes" is pre ++ [x] ++ post,
    [x] being its first element whose type does not end in "Trivia", and let
    no other inspected field hold a Group.  Whatever the order in which the
    fields are visited, the relocator puts [x] back under [key], appends
    [pre] to the held leading list and puts [post] in front of the held
    trailing list.  For a node without side-channel fields and without a
    designated field, and [pre] and [post] not both empty, [Check] then
    hands on a Group whose "Nodes" is pre ++ [node with x under key] ++ post. *)
Theorem opMoveTrivias_Check_unwraps_token {State : Type}
    (rangeOrder : Object -> list string) (sub : Op State)
    (obj : Object) (key : string) (group : Object)
    (pre post : list Node) (x : Node) (st : State) :
  rangeOrder obj ≡ₚ (map_to_list obj).*1 ->
  isTokenKey key = true ->
  obj !! key = Some (Obj group) ->
  TypeOf (Obj group) = typeGroup ->
  group !! "Nodes" = Some (Arr (pre ++ x :: post)) ->
  Forall (fun y => HasSuffix (TypeOf y) "Trivia" = true) pre ->
  HasSuffix (TypeOf x) "Trivia" = false ->
  (forall k v, k <> key -> obj !! k = Some v ->
               isTokenKey k = true -> TypeOf v <> typeGroup) ->
  let s0 := moveTrivias_cut obj in
  moveTrivias_collect (rangeOrder obj) obj =
    mkTrivias (<[key := x]> (tv_obj s0)) (tv_leading s0 ++ pre)
      (post ++ tv_trailing s0) true
  /\ (obj !! "LeadingTrivia" = None -> obj !! "TrailingTrivia" = None ->
      triviaField !! TypeOf (Obj obj) = None -> pre ++ post <> [] ->
      Check (opMoveTrivias rangeOrder sub) (Obj obj) st =
      Check sub
        (Obj (<["Nodes" := Arr (pre ++ [Obj (<[key := x]> obj)] ++ post)]>
                emptyGroup)) st).
Proof.
  intros Hperm Hkey Hobj Htyp Hnodes Hpre Hx Hothers s0.
  assert (Hcollect : moveTrivias_collect (rangeOrder obj) obj =
    mkTrivias (<[key := x]> (tv_obj s0)) (tv_leading s0 ++ pre)
      (post ++ tv_trailing s0) true).
  { rewrite (moveTrivias_collect_single _ obj key group Hperm Hkey Hobj Hothers).
    fold s0.
    rewrite (moveTrivias_visit_group (tv_obj s0) s0 key group (pre ++ x :: post));
      try assumption.
    - rewrite (firstWithType_app _ pre post x).
      + rewrite list_lookup_middle by reflexivity. rewrite take_app_length.
        rewrite drop_app_ge by lia.
        replace (S (length pre) - length pre) with 1 by lia. reflexivity.
      + eapply Forall_impl; [exact Hpre|]. cbn beta. intros y ->. reflexivity.
      + rewrite Hx. reflexivity.
    - unfold s0. rewrite moveTrivias_cut_token by exact Hkey. exact Hobj. }
  split; [exact Hcollect|].
  intros HL HT Hfield Hne. cbn [Check opMoveTrivias]. unfold opMoveTrivias_Check.
  rewrite Hcollect. unfold s0. rewrite (moveTrivias_cut_absent obj HL HT).
  unfold moveTrivias_place. cbn [tv_obj tv_leading tv_trailing tv_modified].
  rewrite app_nil_l, app_nil_r.
  rewrite moveTrivias_held.
  - rewrite (TypeOf_insert_token obj key x Hkey), Hfield. reflexivity.
  - destruct pre; [right|left; discriminate].
    destruct post; [exfalso; apply Hne; reflexivity|discriminate].
Qed.

Lemma sampleIf_others (key0 : string) (inner : Node) (typ : string) :
  isTokenKey key0 = true ->
  forall k v, k <> key0 -> (<[key0 := inner]> (typed typ) : Object) !! k = Some v ->
              isTokenKey k = true -> TypeOf v <> typeGroup.
Proof.
  intros _ k v Hk Hv Htok.
  rewrite lookup_insert_ne in Hv by congruence.
  unfold typed in Hv. apply lookup_singleton_Some in Hv as [<- _].
  discriminate Htok.
Qed.

Lemma opMoveTrivias_Check_unwraps_token_witness :
  Check (opMoveTrivias listOrder (opVar "group")) (Obj sampleIf) ∅ =
  Check (opVar "group")
    (Obj (<["Nodes" :=
              Arr ([Obj (typed "CommentTrivia")] ++
                   [Obj (<["IfKeyword" := Obj (typed "IfKeyword")]> sampleIf)] ++
                   [Obj (typed "WhitespaceTrivia")])]> emptyGroup)) ∅.
Proof.
  refine (proj2 (opMoveTrivias_Check_unwraps_token listOrder (opVar "group")
            sampleIf "IfKeyword" wrappedKeyword
            [Obj (typed "CommentTrivia")] [Obj (typed "WhitespaceTrivia")]
            (Obj (typed "IfKeyword")) ∅ _ _ _ _ _ _ _ _) _ _ _ _).
  - reflexivity.
  - reflexivity.
  - vm_compute. reflexivity.
  - vm_compute. reflexivity.
  - vm_compute. reflexivity.
  - constructor; [vm_compute; reflexivity|constructor].
  - vm_compute. reflexivity.
  - apply sampleIf_others. reflexivity.
  - vm_compute. reflexivity.
  - vm_compute. reflexivity.
  - vm_compute. reflexivity.
  - discriminate.
Defined.

(** X11. The fallback.  When the Group in the wrapped field holds only
    elements whose type ends in "Trivia" (an empty "Nodes" included), all of
    them join the held leading list, in order, and the field is set to nil:
    it stays in the node and holds no token any more.  For a node without
    side-channel fields and without a designated field, and a Group that is
    not empty, [Check] hands on a Group whose "Nodes" is the trivia followed
    by the node. *)
Theorem opMoveTrivias_Check_trivia_only {State : Type}
    (rangeOrder : Object -> list string) (sub : Op State)
    (obj : Object) (key : string) (group : Object)
    (arr : list Node) (st : State) :
  rangeOrder obj ≡ₚ (map_to_list obj).*1 ->
  isTokenKey key = true ->
  obj !! key = Some (Obj group) ->
  TypeOf (Obj group) = typeGroup ->
  group !! "Nodes" = Some (Arr arr) ->
  Forall (fun y => HasSuffix (TypeOf y) "Trivia" = true) arr ->
  (forall k v, k <> key -> obj !! k = Some v ->
               isTokenKey k = true -> TypeOf v <> typeGroup) ->
  let s0 := moveTrivias_cut obj in
  moveTrivias_collect (rangeOrder obj) obj =
    mkTrivias (<[key := Null]> (tv_obj s0)) (tv_leading s0 ++ arr)
      (tv_trailing s0) true
  /\ (obj !! "LeadingTrivia" = None -> obj !! "TrailingTrivia" = None ->
      triviaField !! TypeOf (Obj obj) = None -> arr <> [] ->
      Check (opMoveTrivias rangeOrder sub) (Obj obj) st =
      Check sub
        (Obj (<["Nodes" := Arr (arr ++ [Obj (<[key := Null]> obj)])]>
                emptyGroup)) st).
Proof.
  intros Hperm Hkey Hobj Htyp Hnodes Harr Hothers s0.
  assert (Hcollect : moveTrivias_collect (rangeOrder obj) obj =
    mkTrivias (<[key := Null]> (tv_obj s0)) (tv_leading s0 ++ arr)
      (tv_trailing s0) true).
  { rewrite (moveTrivias_collect_single _ obj key group Hperm Hkey Hobj Hothers).
    fold s0.
    rewrite (moveTrivias_visit_group (tv_obj s0) s0 key group arr);
      try assumption.
    - rewrite firstWithType_none; [reflexivity|].
      eapply Forall_impl; [exact Harr|]. cbn beta. intros y ->. reflexivity.
    - unfold s0. rewrite moveTrivias_cut_token by exact Hkey. exact Hobj. }
  split; [exact Hcollect|].
  intros HL HT Hfield Hne. cbn [Check opMoveTrivias]. unfold opMoveTrivias_Check.
  rewrite Hcollect. unfold s0. rewrite (moveTrivias_cut_absent obj HL HT).
  unfold moveTrivias_place. cbn [tv_obj tv_leading tv_trailing tv_modified].
  rewrite app_nil_l.
  rewrite moveTrivias_held by (left; exact Hne).
  rewrite (TypeOf_insert_token obj key Null Hkey), Hfield.
  rewrite app_nil_r. reflexivity.
Qed.

Lemma opMoveTrivias_Check_trivia_only_witness :
  Check (opMoveTrivias listOrder (opVar "group")) (Obj sampleLost) ∅ =
  Check (opVar "group")
    (Obj (<["Nodes" :=
              Arr ([Obj (typed "CommentTrivia"); Obj (typed "WhitespaceTrivia")] ++
                   [Obj (<["SemicolonToken" := Null]> sampleLost)])]>
            emptyGroup)) ∅.
Proof.
  refine (proj2 (opMoveTrivias_Check_trivia_only listOrder (opVar "group")
            sampleLost "SemicolonToken" triviaOnly
            [Obj (typed "CommentTrivia"); Obj (typed "WhitespaceTrivia")]
            ∅ _ _ _ _ _ _ _) _ _ _ _).
  - reflexivity.
  - reflexivity.
  - vm_compute. reflexivity.
  - vm_compute. reflexivity.
  - vm_compute. reflexivity.
  - repeat (constructor; [vm_compute; reflexivity|]). constructor.
  - apply sampleIf_others. reflexivity.
  - vm_compute. reflexivity.
  - vm_compute. reflexivity.
  - vm_compute. reflexivity.
  - discriminate.
Defined.

(** X12. With more than one wrapped token field the held lists depend on the
    order in which the map of the node is visited: two orders of the same
    keys give different leading lists. *)
Theorem moveTrivias_collect_order_matters :
  exists (obj : Object) (keys1 keys2 : list string),
    keys1 ≡ₚ (map_to_list obj).*1 /\ keys2 ≡ₚ (map_to_list obj).*1 /\
    tv_leading (moveTrivias_collect keys1 obj) <>
    tv_leading (moveTrivias_collect keys2 obj).
Proof.
  exists sampleTwoTokens, (listOrder sampleTwoTokens),
    (reverse (listOrder sampleTwoTokens)).
  split; [reflexivity|]. split; [apply reverse_Permutation|].
  vm_compute. discriminate.
Qed.

(** ** opMergeGroups *)

(** X13. A Group whose first FunctionGroup element has no array under
    "Nodes" is an error, not a mismatch: the merger does not hand on a
    half-merged node. *)
Theorem opMergeGroups_Check_inner_not_array {State : Type} (sub : Op State)
    (group fg : Object) (pre post : list Node) (st : State) :
  TypeOf (Obj group) = typeGroup ->
  group !! "Nodes" = Some (Arr (pre ++ Obj fg :: post)) ->
  Forall (fun x => TypeOf x <> typeFuncGroup) pre ->
  TypeOf (Obj fg) = typeFuncGroup ->
  (forall inner, fg !! "Nodes" <> Some (Arr inner)) ->
  Check (opMergeGroups sub) (Obj group) st =
  Err (ErrorString "expected an array in Group.Nodes").
Proof.
  intros Htyp Hnodes Hpre Hfg Hnot.
  rewrite (opMergeGroups_Check_Group sub group Htyp).
  unfold checkGroup, fieldArray. rewrite Hnodes. cbn [negb].
  rewrite (firstWithType_app _ pre post (Obj fg)).
  - rewrite list_lookup_middle by reflexivity.
    destruct (fg !! "Nodes") as [[| | | | |inner|]|] eqn:E; try reflexivity.
    exfalso. exact (Hnot inner eq_refl).
  - eapply Forall_impl; [exact Hpre|]. cbn beta. intros x Hx.
    destruct (String.eqb_spec (TypeOf x) typeFuncGroup); [contradiction|reflexivity].
  - rewrite Hfg. reflexivity.
Qed.

Lemma opMergeGroups_Check_inner_not_array_witness :
  Check (opMergeGroups (opVar "group")) (Obj brokenGroup) ∅ =
  Err (ErrorString "expected an array in Group.Nodes").
Proof.
  refine (opMergeGroups_Check_inner_not_array (opVar "group") brokenGroup
            (typed typeFuncGroup) [Obj (typed "CommentTrivia")] [] ∅ _ _ _ _ _).
  - vm_compute. reflexivity.
  - vm_compute. reflexivity.
  - constructor; [vm_compute; discriminate|constructor].
  - vm_compute. reflexivity.
  - intros inner H. vm_compute in H. discriminate H.
Defined.

Lemma checkFuncGroup_loop_unsound (todo done : list Node) (modified : bool) :
  forallb slotSound todo = false ->
  checkFuncGroup_loop done todo modified =
  Err (ErrorString "expected an array in Group.Nodes").
Proof.
  revert done modified. induction todo as [|v tl IH]; intros done modified Hs.
  - discriminate Hs.
  - cbn [forallb] in Hs. cbn [checkFuncGroup_loop].
    destruct (isNil v) eqn:Hnil.
    + destruct v; try discriminate Hnil. simpl in Hs. apply IH. exact Hs.
    + assert (Hkeep : slotSound v = true -> forall d m,
                checkFuncGroup_loop d tl m =
                Err (ErrorString "expected an array in Group.Nodes")).
      { intros Hv d m. rewrite Hv in Hs. apply IH. exact Hs. }
      destruct v as [| | | | |arr2|]; try (apply Hkeep; reflexivity).
      rewrite firstWithType_eqb_find. unfold slotSound in Hs, Hkeep.
      destruct (list_find (fun x => TypeOf x = typeGroup) arr2) as [[ind g]|] eqn:E;
        [|apply Hkeep; reflexivity].
      cbn [fmap option_fmap option_map fst].
      apply list_find_Some in E as (Hind & Hg & _). rewrite Hind.
      destruct (TypeOf_nonempty_Obj g) as [group ->];
        [rewrite Hg; discriminate|].
      unfold fieldArray.
      destruct (group !! "Nodes") as [[| | | | |arr3|]|]; try reflexivity.
      cbn [negb]. apply Hkeep. reflexivity.
Qed.

(** X14. A FunctionGroup one of whose array entries has, as its first Group
    element, a Group without an array under "Nodes" is an error, wherever
    that entry stands and whatever the other entries hold. *)
Theorem opMergeGroups_Check_slot_not_array {State : Type} (sub : Op State)
    (fgroup : Object) (arr : list Node) (st : State) :
  TypeOf (Obj fgroup) = typeFuncGroup ->
  fgroup !! "Nodes" = Some (Arr arr) ->
  forallb slotSound arr = false ->
  Check (opMergeGroups sub) (Obj fgroup) st =
  Err (ErrorString "expected an array in Group.Nodes").
Proof.
  intros Htyp Hnodes Hbad.
  rewrite (opMergeGroups_Check_FuncGroup sub fgroup Htyp).
  unfold checkFuncGroup, fieldArray. rewrite Hnodes. cbn [negb].
  rewrite (checkFuncGroup_loop_unsound arr [] false Hbad). reflexivity.
Qed.

Lemma opMergeGroups_Check_slot_not_array_witness :
  Check (opMergeGroups (opVar "group")) (Obj brokenFuncGroup) ∅ =
  Err (ErrorString "expected an array in Group.Nodes").
Proof.
  refine (opMergeGroups_Check_slot_not_array (opVar "group") brokenFuncGroup
            [Null; Arr [Obj (typed "PublicKeyword"); Obj emptyGroup];
             Obj (typed "uast:Alias")] ∅ _ _ _);
    vm_compute; reflexivity.
Defined.

(** ** The suffix test *)

Lemma substring_whole (s : string) : substring 0 (String.length s) s = s.
Proof. induction s as [|c s IH]; simpl; [reflexivity|]. rewrite IH. reflexivity. Qed.

Lemma substring_skip (p s : string) (m : nat) :
  substring (String.length p) m (p +:+ s) = substring 0 m s.
Proof. induction p as [|c p IH]; simpl; [reflexivity|exact IH]. Qed.

Lemma length_append (p s : string) :
  String.length (p +:+ s) = String.length p + String.length s.
Proof. induction p as [|c p IH]; simpl; [reflexivity|]. rewrite IH. reflexivity. Qed.

Lemma substring_split (s : string) (n : nat) :
  n <= String.length s ->
  s = substring 0 n s +:+ substring n (String.length s - n) s.
Proof.
  revert n. induction s as [|c s IH]; intros n Hn; simpl in *.
  - destruct n; [reflexivity|lia].
  - destruct n as [|n]; simpl.
    + rewrite substring_whole. reflexivity.
    + change (String c s =
              String c (substring 0 n s +:+ substring n (String.length s - n) s)).
      f_equal. apply IH. lia.
Qed.

(** [HasSuffix s suffix] holds exactly when [s] ends with [suffix]. *)
Lemma HasSuffix_spec (s suffix : string) :
  HasSuffix s suffix = true <-> exists p, s = p +:+ suffix.
Proof.
  unfold HasSuffix. rewrite andb_true_iff, Nat.leb_le, String.eqb_eq. split.
  - intros [Hlen Hsub].
    exists (substring 0 (String.length s - String.length suffix) s).
    pose proof (substring_split s (String.length s - String.length suffix)) as H.
    replace (String.length s - (String.length s - String.length suffix))
      with (String.length suffix) in H by lia.
    rewrite Hsub in H. apply H. lia.
  - intros [p ->]. rewrite length_append. split; [lia|].
    replace (String.length p + String.length suffix - String.length suffix)
      with (String.length p) by lia.
    rewrite substring_skip. apply substring_whole.
Qed.

Lemma isTokenKey_names (k : string) :
  isTokenKey k = true <->
  k = "ReturnType" \/ (exists p, k = p +:+ "Token") \/ (exists p, k = p +:+ "Keyword").
Proof.
  unfold isTokenKey. rewrite !orb_true_iff, String.eqb_eq, !HasSuffix_spec.
  tauto.
Qed.

(** The loop looks for an earlier wrapper only under "ReturnType" and under
    names that end in "Token" or "Keyword": every other field, the two
    side-channel fields apart, is after the loop what it was in the input,
    a Group included. *)
Theorem moveTrivias_collect_other_fields (keys : list string) (obj : Object)
    (k : string) :
  k <> "ReturnType" ->
  (forall p, k <> p +:+ "Token") ->
  (forall p, k <> p +:+ "Keyword") ->
  k <> "LeadingTrivia" -> k <> "TrailingTrivia" ->
  tv_obj (moveTrivias_collect keys obj) !! k = obj !! k.
Proof.
  intros HR HT HK H1 H2. apply moveTrivias_collect_lookup; [|exact H1|exact H2].
  apply not_true_is_false. intros H.
  apply isTokenKey_names in H as [H|[[p H]|[p H]]].
  - exact (HR H).
  - exact (HT p H).
  - exact (HK p H).
Qed.

Lemma moveTrivias_collect_other_fields_witness :
  tv_obj (moveTrivias_collect ["Modifiers"]
            (<["Modifiers" := Obj wrappedKeyword]> (typed "MethodDeclaration")))
    !! "Modifiers" = Some (Obj wrappedKeyword).
Proof.
  rewrite (moveTrivias_collect_other_fields ["Modifiers"]
             (<["Modifiers" := Obj wrappedKeyword]> (typed "MethodDeclaration"))
             "Modifiers").
  - apply lookup_insert_eq.
  - discriminate.
  - intros p H.
    assert (E : HasSuffix "Modifiers" "Token" = true)
      by (apply HasSuffix_spec; exists p; exact H).
    vm_compute in E. discriminate E.
  - intros p H.
    assert (E : HasSuffix "Modifiers" "Keyword" = true)
      by (apply HasSuffix_spec; exists p; exact H).
    vm_compute in E. discriminate E.
  - discriminate.
  - discriminate.
Defined.

(** * The relocation, field by field *)

Lemma moveTrivias_visit_eq (src : Object) (s : Trivias) (key : string) :
  moveTrivias_visit src s key =
  match wrappedNodes src key with
  | None => s
  | Some arr =>
      mkTrivias (<[key := tokenOf arr]> (tv_obj s)) (tv_leading s ++ leadPart arr)
        (trailPart arr ++ tv_trailing s) true
  end.
Proof.
  unfold moveTrivias_visit, wrappedNodes.
  rewrite isTokenKey_guard.
  destruct (src !! key) as [sub|]; [|destruct (isTokenKey key); reflexivity].
  destruct (isTokenKey key); [|reflexivity]. cbn [negb mbind option_bind].
  unfold wrappedIn.
  destruct sub as [| | | | | |group]; try reflexivity.
  destruct (String.eqb (TypeOf (Obj group)) typeGroup); [|reflexivity].
  cbn [negb]. unfold fieldArray.
  destruct (group !! "Nodes") as [[| | | | |arr|]|]; try reflexivity.
  cbn [negb]. unfold tokenOf, leadPart, trailPart.
  change (fun typ : string => negb (HasSuffix typ "Trivia")) with notTrivia.
  destruct (firstWithType arr notTrivia); reflexivity.
Qed.

Lemma wrappedNodes_token (obj : Object) (k : string) (arr : list Node) :
  wrappedNodes obj k = Some arr -> isTokenKey k = true.
Proof. unfold wrappedNodes. destruct (isTokenKey k); [reflexivity|discriminate]. Qed.

Lemma wrappedNodes_cut (obj : Object) (k : string) :
  wrappedNodes (tv_obj (moveTrivias_cut obj)) k = wrappedNodes obj k.
Proof.
  unfold wrappedNodes. destruct (isTokenKey k) eqn:Hk; [|reflexivity].
  rewrite moveTrivias_cut_token by exact Hk. reflexivity.
Qed.

Lemma moveTrivias_fold_leading (src : Object) (keys : list string) (s : Trivias) :
  tv_leading (foldl (moveTrivias_visit src) s keys) =
  tv_leading s ++ concat (leadPart <$> omap (wrappedNodes src) keys).
Proof.
  revert s. induction keys as [|key tl IH]; intros s; simpl.
  - rewrite app_nil_r. reflexivity.
  - rewrite IH, moveTrivias_visit_eq.
    destruct (wrappedNodes src key) as [arr|]; simpl; [|reflexivity].
    rewrite <- app_assoc. reflexivity.
Qed.

Lemma moveTrivias_fold_trailing (src : Object) (keys : list string) (s : Trivias) :
  tv_trailing (foldl (moveTrivias_visit src) s keys) =
  concat (trailPart <$> reverse (omap (wrappedNodes src) keys)) ++ tv_trailing s.
Proof.
  revert s. induction keys as [|key tl IH]; intros s; simpl.
  - reflexivity.
  - rewrite IH, moveTrivias_visit_eq.
    destruct (wrappedNodes src key) as [arr|]; simpl; [|reflexivity].
    rewrite reverse_cons, fmap_app, concat_app. simpl.
    rewrite app_nil_r, <- app_assoc. reflexivity.
Qed.

Lemma moveTrivias_fold_lookup_plain (src : Object) (keys : list string)
    (s : Trivias) (k : string) :
  wrappedNodes src k = None \/ k ∉ keys ->
  tv_obj (foldl (moveTrivias_visit src) s keys) !! k = tv_obj s !! k.
Proof.
  revert s. induction keys as [|key tl IH]; intros s H; simpl; [reflexivity|].
  rewrite IH.
  - rewrite moveTrivias_visit_eq.
    destruct (wrappedNodes src key) as [arr|] eqn:E; [|reflexivity].
    simpl. apply lookup_insert_ne. intros ->.
    destruct H as [H|H]; [congruence|]. apply H. left.
  - destruct H as [H|H]; [left; exact H|right].
    intros Hin. apply H. right. exact Hin.
Qed.

Lemma moveTrivias_fold_lookup_token (src : Object) (keys : list string)
    (s : Trivias) (k : string) (arr : list Node) :
  wrappedNodes src k = Some arr -> k ∈ keys ->
  tv_obj (foldl (moveTrivias_visit src) s keys) !! k = Some (tokenOf arr).
Proof.
  intros Hk. revert s. induction keys as [|key tl IH]; intros s Hin.
  - inversion Hin.
  - simpl. destruct (decide (k ∈ tl)) as [Htl|Htl]; [apply IH; exact Htl|].
    rewrite moveTrivias_fold_lookup_plain by (right; exact Htl).
    apply elem_of_cons in Hin as [->|Hin]; [|contradiction].
    rewrite moveTrivias_visit_eq, Hk. simpl. apply lookup_insert_eq.
Qed.

Lemma moveTrivias_cut_node (obj : Object) :
  tv_obj (moveTrivias_cut obj) =
  if sideCut obj then delete "TrailingTrivia" (delete "LeadingTrivia" obj) else obj.
Proof.
  unfold moveTrivias_cut, sideCut.
  destruct (fieldArray obj "LeadingTrivia") as [l ok1].
  destruct (fieldArray obj "TrailingTrivia") as [t ok2]. simpl.
  destruct (ok1 || ok2); reflexivity.
Qed.

Lemma moveTrivias_cut_lists (obj : Object) :
  tv_leading (moveTrivias_cut obj) = (fieldArray obj "LeadingTrivia").1 /\
  tv_trailing (moveTrivias_cut obj) = (fieldArray obj "TrailingTrivia").1.
Proof.
  unfold moveTrivias_cut.
  destruct (fieldArray obj "LeadingTrivia") as [l ok1].
  destruct (fieldArray obj "TrailingTrivia") as [t ok2]. simpl.
  destruct (ok1 || ok2); split; reflexivity.
Qed.

(** The node the loop leaves is [relocatedNode], whatever the order of the
    visit, as long as every key of the node is visited. *)
Lemma moveTrivias_collect_node (keys : list string) (obj : Object) :
  keys ≡ₚ (map_to_list obj).*1 ->
  tv_obj (moveTrivias_collect keys obj) = relocatedNode obj.
Proof.
  intros Hperm. apply map_eq. intros k. unfold relocatedNode.
  rewrite map_lookup_imap. unfold moveTrivias_collect.
  destruct (wrappedNodes obj k) as [arr|] eqn:Hw.
  - pose proof (wrappedNodes_token obj k arr Hw) as Htok.
    assert (Hv : exists v, obj !! k = Some v).
    { unfold wrappedNodes in Hw. rewrite Htok in Hw.
      destruct (obj !! k) as [v|]; [eauto|discriminate Hw]. }
    destruct Hv as [v Hv].
    rewrite (moveTrivias_fold_lookup_token _ _ _ k arr).
    + rewrite Hv. cbn [mbind option_bind].
      replace (String.eqb k "LeadingTrivia" || String.eqb k "TrailingTrivia")
        with false.
      * rewrite andb_false_r, ?Hw. reflexivity.
      * symmetry. apply orb_false_iff.
        split; apply String.eqb_neq; intros ->; discriminate Htok.
    + rewrite wrappedNodes_cut. exact Hw.
    + apply (rangeOrder_keys keys obj k v Hperm Hv).
  - rewrite moveTrivias_fold_lookup_plain
      by (left; rewrite wrappedNodes_cut; exact Hw).
    rewrite moveTrivias_cut_node.
    destruct (sideCut obj); cbn [andb].
    + destruct (String.eqb_spec k "LeadingTrivia") as [->|H1].
      { rewrite lookup_delete_ne by discriminate. rewrite lookup_delete_eq.
        destruct (obj !! "LeadingTrivia"); reflexivity. }
      destruct (String.eqb_spec k "TrailingTrivia") as [->|H2].
      { rewrite lookup_delete_eq. destruct (obj !! "TrailingTrivia"); reflexivity. }
      rewrite lookup_delete_ne by congruence.
      rewrite lookup_delete_ne by congruence.
      cbn [orb]. rewrite ?Hw. destruct (obj !! k); reflexivity.
    + rewrite ?Hw. destruct (obj !! k); reflexivity.
Qed.

Lemma moveTrivias_collect_lists (keys : list string) (obj : Object) :
  tv_leading (moveTrivias_collect keys obj) =
    (fieldArray obj "LeadingTrivia").1 ++
    concat (leadPart <$> omap (wrappedNodes obj) keys) /\
  tv_trailing (moveTrivias_collect keys obj) =
    concat (trailPart <$> reverse (omap (wrappedNodes obj) keys)) ++
    (fieldArray obj "TrailingTrivia").1.
Proof.
  unfold moveTrivias_collect.
  rewrite moveTrivias_fold_leading, moveTrivias_fold_trailing.
  destruct (moveTrivias_cut_lists obj) as [-> ->].
  assert (E : omap (wrappedNodes (tv_obj (moveTrivias_cut obj))) keys =
              omap (wrappedNodes obj) keys).
  { induction keys as [|k tl IH]; [reflexivity|]. simpl.
    rewrite wrappedNodes_cut.
    destruct (wrappedNodes obj k); [f_equal|]; exact IH. }
  rewrite E. split; reflexivity.
Qed.

Lemma wrappedNodes_none_fold (src : Object) (keys : list string) (s : Trivias) :
  (forall k, wrappedNodes src k = None) ->
  foldl (moveTrivias_visit src) s keys = s.
Proof.
  intros H. induction keys as [|key tl IH]; simpl; [reflexivity|].
  rewrite moveTrivias_visit_eq, H. exact IH.
Qed.

Lemma wrappedNodes_none_omap (obj : Object) (keys : list string) :
  (forall k, wrappedNodes obj k = None) ->
  omap (wrappedNodes obj) keys = [].
Proof.
  intros H. induction keys as [|key tl IH]; [reflexivity|].
  simpl. rewrite H. exact IH.
Qed.

Lemma fieldArray_not_ok (obj : Object) (key : string) :
  (fieldArray obj key).2 = false -> (fieldArray obj key).1 = [].
Proof.
  unfold fieldArray. destruct (obj !! key) as [[| | | | |a|]|]; simpl; congruence.
Qed.

(** C1 fails as stated: with a leading comment and a semicolon field whose
    wrapper holds trivia only, the node inside the new Group is not the
    input without its side-channel fields: its semicolon field holds nil. *)
Lemma opMoveTrivias_Check_node_not_only_stripped :
  Check (opMoveTrivias listOrder (opVar "group")) (Obj sampleLostLeading) ∅ =
    Ok (true,
        {[ "group" :=
             Obj (<["Nodes" :=
                      Arr ([Obj (typed "DocumentationCommentTrivia");
                            Obj (typed "CommentTrivia");
                            Obj (typed "WhitespaceTrivia")] ++
                           [Obj (<["SemicolonToken" := Null]>
                                   (typed "EmptyStatement"))] ++ [])]>
                    emptyGroup) ]})
  /\ <["SemicolonToken" := Null]> (typed "EmptyStatement") <>
     delete "TrailingTrivia" (delete "LeadingTrivia" sampleLostLeading).
Proof.
  split; [vm_compute; reflexivity|].
  intros H. apply (f_equal (fun m : Object => m !! "SemicolonToken")) in H.
  vm_compute in H. discriminate H.
Qed.

(** C1 (amended).  Trivia relocation.  The relocator holds as leading list L
    the contents of the "LeadingTrivia" array followed, for each inspected
    field (token, keyword or "ReturnType") that holds a Group, in the order
    of the visit, by the elements of that Group before its first non-trivia
    element (all of them if there is none); and as trailing list T the
    elements after that element, for the fields in the reverse order of the
    visit, followed by the contents of the "TrailingTrivia" array.  Let
    [node] be the input without its two side-channel fields (when one of
    them holds an array) and with each such field holding the first
    non-trivia element of its Group, nil if there is none.  When L or T is
    not empty: if the type of the node has a designated field holding an
    array, [Check] hands on [node] with that field replaced by
    L ++ contents ++ T, of the same type and not wrapped; otherwise it hands
    on a new Group whose "Nodes" is exactly L ++ [node] ++ T.  When no
    inspected field holds a Group, [node] is exactly the input without its
    two side-channel fields and L and T are their contents. *)
Theorem opMoveTrivias_Check_relocates {State : Type}
    (rangeOrder : Object -> list string) (sub : Op State)
    (obj : Object) (st : State) :
  rangeOrder obj ≡ₚ (map_to_list obj).*1 ->
  let groups := omap (wrappedNodes obj) (rangeOrder obj) in
  let L := (fieldArray obj "LeadingTrivia").1 ++ concat (leadPart <$> groups) in
  let T := concat (trailPart <$> reverse groups) ++
           (fieldArray obj "TrailingTrivia").1 in
  let node := relocatedNode obj in
  L <> [] \/ T <> [] ->
  (forall field old,
      triviaField !! TypeOf (Obj obj) = Some field ->
      obj !! field = Some (Arr old) ->
      Check (opMoveTrivias rangeOrder sub) (Obj obj) st =
        Check sub (Obj (<[field := Arr (L ++ old ++ T)]> node)) st /\
      TypeOf (Obj (<[field := Arr (L ++ old ++ T)]> node)) = TypeOf (Obj obj))
  /\ (triviaField !! TypeOf (Obj obj) = None ->
      Check (opMoveTrivias rangeOrder sub) (Obj obj) st =
        Check sub (Obj (<["Nodes" := Arr (L ++ [Obj node] ++ T)]> emptyGroup)) st /\
      TypeOf (Obj (<["Nodes" := Arr (L ++ [Obj node] ++ T)]> emptyGroup)) = typeGroup)
  /\ ((forall key, wrappedNodes obj key = None) ->
      node = delete "TrailingTrivia" (delete "LeadingTrivia" obj) /\
      L = (fieldArray obj "LeadingTrivia").1 /\
      T = (fieldArray obj "TrailingTrivia").1).
Proof.
  intros Hperm groups L T node Hheld.
  pose proof (moveTrivias_collect_node (rangeOrder obj) obj Hperm) as Hnode.
  destruct (moveTrivias_collect_lists (rangeOrder obj) obj) as [HL HT].
  fold groups in HL, HT. fold L in HL. fold T in HT. fold node in Hnode.
  pose proof (opMoveTrivias_Check_places rangeOrder sub obj st) as P.
  cbv zeta in P. rewrite HL, HT, Hnode in P.
  destruct (P Hheld) as (P1 & P2 & _).
  split; [exact P1|]. split; [exact P2|].
  intros Hplain.
  assert (Hg : groups = []) by (apply wrappedNodes_none_omap; exact Hplain).
  assert (EL : L = (fieldArray obj "LeadingTrivia").1)
    by (unfold L; rewrite Hg; apply app_nil_r).
  assert (ET : T = (fieldArray obj "TrailingTrivia").1)
    by (unfold T; rewrite Hg; reflexivity).
  split; [|split; [exact EL|exact ET]].
  rewrite <- Hnode. unfold moveTrivias_collect.
  rewrite wrappedNodes_none_fold
    by (intros k; rewrite wrappedNodes_cut; apply Hplain).
  rewrite moveTrivias_cut_node. unfold sideCut.
  destruct ((fieldArray obj "LeadingTrivia").2) eqn:E1; [reflexivity|].
  destruct ((fieldArray obj "TrailingTrivia").2) eqn:E2; [reflexivity|].
  exfalso. rewrite EL, ET in Hheld.
  rewrite (fieldArray_not_ok _ _ E1), (fieldArray_not_ok _ _ E2) in Hheld.
  destruct Hheld as [H|H]; apply H; reflexivity.
Qed.

Lemma opMoveTrivias_Check_relocates_witness :
  Check (opMoveTrivias listOrder (opVar "group")) (Obj sampleLostLeading) ∅ =
  Check (opVar "group")
    (Obj (<["Nodes" :=
              Arr (((fieldArray sampleLostLeading "LeadingTrivia").1 ++
                    concat (leadPart <$>
                              omap (wrappedNodes sampleLostLeading)
                                (listOrder sampleLostLeading))) ++
                   [Obj (relocatedNode sampleLostLeading)] ++
                   (concat (trailPart <$>
                              reverse (omap (wrappedNodes sampleLostLeading)
                                         (listOrder sampleLostLeading))) ++
                    (fieldArray sampleLostLeading "TrailingTrivia").1))]>
            emptyGroup)) ∅.
Proof.
  refine (proj1 (proj1 (proj2 (opMoveTrivias_Check_relocates listOrder
            (opVar "group") sampleLostLeading ∅ _ _)) _)).
  - reflexivity.
  - left. vm_compute. discriminate.
  - vm_compute. reflexivity.
Defined.

(** The relocated node and the held lists of the sample, computed. *)
Example relocatedNode_sample :
  relocatedNode sampleLostLeading =
    <["SemicolonToken" := Null]> (typed "EmptyStatement")
  /\ relocatedNode sampleBlock =
     <["Statements" := Arr [Obj (typed "ReturnStatement")]]> (typed "Block")
  /\ relocatedNode sampleIf =
     <["IfKeyword" := Obj (typed "IfKeyword")]> (typed "IfStatement").
Proof. vm_compute. repeat split. Qed.

(** * What one application hands on *)













